(** * Species-aware re-ranking pipeline of [app.py]

    A shallow embedding of the inference and re-ranking block of [app.py]
    (lines 115-256): validity gate, species detector, species penalty and
    renormalisation, stable ranking, confidence banding and alert flag.

    Conventions of the embedding.
    - Python [str] values are [string]s holding the UTF-8 bytes of the text.
      UTF-8 is self-synchronising, so [k in txt] on code points and on bytes
      agree for well-formed text.
    - Python [float] values are modelled at three levels.  The statements
      about order and structure are proved on exact rationals [Q].  The
      statements that depend on rounding (the tolerance of the adjusted sum,
      the degenerate total, the effect of the penalty on one probability)
      are proved on the module [Rounded]: the same block with a rounding
      after every arithmetic operation, for every rounding that has the
      error model of binary64; [round64] (53 bits, round to nearest even,
      gradual underflow) is such a rounding and is executable.  Overflow is
      not modelled: probabilities and their sums stay far below it.  The
      module [Binary64] repeats the block on primitive floats, to run it
      with the rounding of the hardware on the concrete frames used below
      and to compare it with [Rounded].  Division is kept partial
      ([py_div]) so that a [ZeroDivisionError] stays visible.
    - The builtins [str.lower] and [str.strip], the classifier and the pandas
      frame sort are collaborators of the pipeline; they are gathered in the
      class [Collaborators] together with the part of their contract the
      pipeline relies on. *)

From Stdlib Require Import Ascii String ZArith QArith Qabs Qround Qpower Lqa Lia.
From Stdlib Require Import PrimFloat FloatOps SpecFloat.
From stdpp Require Import base strings list sorting gmap.

Set Warnings "-inexact-float".

Open Scope string_scope.
Open Scope list_scope.

(** ** Python string primitives used by [app.py] *)

Module PyStr.

(** [bool(s)] for a string: non-empty. *)
Definition truthy (s : string) : bool :=
  match s with
  | EmptyString => false
  | String _ _ => true
  end.

(** [bool(o)] for a value that is [None] or a string. *)
Definition opt_truthy (o : option string) : bool :=
  match o with
  | None => false
  | Some s => truthy s
  end.

(** [txt.startswith(k)]. *)
Fixpoint starts_with (k txt : string) : bool :=
  match k, txt with
  | EmptyString, _ => true
  | String _ _, EmptyString => false
  | String a k', String b txt' => Ascii.eqb a b && starts_with k' txt'
  end.

(** [k in txt]: [k] occurs as a contiguous substring of [txt]. *)
Fixpoint contains (k txt : string) : bool :=
  starts_with k txt ||
  match txt with
  | EmptyString => false
  | String _ txt' => contains k txt'
  end.

(** [s.split(sep)] for a one-character separator. *)
Fixpoint split (sep : ascii) (s : string) : list string :=
  match s with
  | EmptyString => [EmptyString]
  | String c s' =>
      if Ascii.eqb c sep then EmptyString :: split sep s'
      else match split sep s' with
           | [] => [String c EmptyString]
           | w :: ws => String c w :: ws
           end
  end.

(** [x in parts] for a list of strings. *)
Definition mem (x : string) (parts : list string) : bool :=
  existsb (String.eqb x) parts.

(** ASCII instances of [str.lower] and [str.strip]; they agree with
    Python on text whose cased and blank characters are all ASCII. *)
Definition lower_ascii (c : ascii) : ascii :=
  let n := nat_of_ascii c in
  if (65 <=? n)%nat && (n <=? 90)%nat then ascii_of_nat (n + 32) else c.

Fixpoint ascii_lower (s : string) : string :=
  match s with
  | EmptyString => EmptyString
  | String c s' => String (lower_ascii c) (ascii_lower s')
  end.

Definition is_blank (c : ascii) : bool :=
  let n := nat_of_ascii c in
  (n =? 32)%nat || ((9 <=? n)%nat && (n <=? 13)%nat) ||
  ((28 <=? n)%nat && (n <=? 31)%nat).

Fixpoint lstrip (s : string) : string :=
  match s with
  | EmptyString => EmptyString
  | String c s' => if is_blank c then lstrip s' else s
  end.

Fixpoint rstrip (s : string) : string :=
  match s with
  | EmptyString => EmptyString
  | String c s' =>
      match rstrip s' with
      | EmptyString => if is_blank c then EmptyString else String c EmptyString
      | r => String c r
      end
  end.

Definition ascii_strip (s : string) : string := rstrip (lstrip s).

End PyStr.

Import PyStr.

(** ** Static tables ([app.py] lines 15-57) *)

(** disease -> Sinhala display name, lowercase keys (lines 15-31). *)
Definition disease_si : gmap string string :=
  list_to_map
    [ ("parvovirus", "පාර්වෝ වෛරස් රෝගය (බල්ලා)");
      ("distemper", "ඩිස්ටෙම්පර් රෝගය (බල්ලා)");
      ("skin_allergy", "සම අසාත්මිකතාව (බල්ලා / පූසා)");
      ("mastitis", "ස්තන ආසාදනය (ගවයා)");
      ("foot_and_mouth", "පා සහ මුව රෝගය (ගවයා)");
      ("bovine_diarrhea", "ගවයාගේ දියවැඩියාව");
      ("bovine_tuberculosis", "ගවයාගේ ටියුබර්කියුලෝසිස් (TB)");
      ("feline_allergy", "පූසාගේ සම අසාත්මිකතාව");
      ("feline_arthritis", "පූසාගේ අස්ථි රෝගය");
      ("feline_panleukopenia", "පූසාගේ පෑන්ලියුකෝපෙනියා");
      ("feline_uti", "පූසාගේ මූත්‍රා පද්ධති ආසාදනය (UTI)");
      ("arthritis", "අස්ථි සන්ධි රෝගය (බල්ලා / ගවයා)");
      ("ketosis", "කීටෝසිස් (ගවයා)");
      ("kidney_disease", "වකුගඩු රෝගය (බල්ලා / පූසා)");
      ("rhinotracheitis", "රයිනෝට්‍රැකයිටිස් (පූසා)") ].

(** Default of [disease_si.get] at line 185. *)
Definition si_missing : string := "— සිංහල නාමය නොමැත —".

(** disease -> species tag; a tag is one species or an underscore-separated
    group (lines 34-50). *)
Definition disease_species : gmap string string :=
  list_to_map
    [ ("Parvovirus", "dog");
      ("Distemper", "dog");
      ("Skin_Allergy", "dog_cat");
      ("Arthritis", "dog_cow");
      ("Kidney_Disease", "dog_cat");
      ("Feline_Panleukopenia", "cat");
      ("Rhinotracheitis", "cat");
      ("Feline_UTI", "cat");
      ("Feline_Allergy", "cat");
      ("Feline_Arthritis", "cat");
      ("Mastitis", "cow");
      ("Foot_and_Mouth", "cow");
      ("Bovine_Diarrhea", "cow");
      ("Bovine_Tuberculosis", "cow");
      ("Ketosis", "cow") ].

(** species -> keywords, in the insertion order that [dict.items()] iterates
    (lines 53-57). *)
Definition species_keywords : list (string * list string) :=
  [ ("dog", ["dog"; "බල්ලා"; "canine"]);
    ("cat", ["cat"; "පූසා"; "feline"]);
    ("cow", ["cow"; "ගවයා"; "cattle"; "ගෝමිය"]) ].

(** ** Species detector (lines 138-146) *)

(** Inner loop [for k in keys: if k in txt: detected_species = sp; break]. *)
Fixpoint scan_keys (txt sp : string) (keys : list string)
    (detected_species : option string) : option string :=
  match keys with
  | [] => detected_species
  | k :: keys' =>
      if contains k txt then Some sp
      else scan_keys txt sp keys' detected_species
  end.

(** Outer loop over [species_keywords.items()], leaving at the first truthy
    [detected_species]. *)
Fixpoint scan_species (txt : string) (items : list (string * list string))
    (detected_species : option string) : option string :=
  match items with
  | [] => detected_species
  | (sp, keys) :: items' =>
      let detected_species := scan_keys txt sp keys detected_species in
      if opt_truthy detected_species then detected_species
      else scan_species txt items' detected_species
  end.

Definition detect_species (txt : string) : option string :=
  scan_species txt species_keywords None.

(** ** Numbers *)

Open Scope Q_scope.

(** [x < y] on probabilities. *)
Definition Qlt_bool (x y : Q) : bool := negb (Qle_bool y x).

(** [sum(l)]: left-to-right additions starting from [0]. *)
Definition py_sum (l : list Q) : Q := fold_left Qplus l 0.

(** Exceptions the block can raise. *)
Inductive PyError : Set :=
  | KeyError
  | ZeroDivisionError.

(** [p / total]; Python raises on a zero divisor. *)
Definition py_div (p total : Q) : PyError + Q :=
  if Qeq_bool total 0 then inl ZeroDivisionError else inr (p / total).

(** ** Distribution normaliser (lines 148-171) *)

(** A row of [all_df], and an element of [adjusted]: disease and probability. *)
Abbreviation Row := (string * Q)%type.

Definition penalty : Q := 0.05.

(** Body of the loop at lines 150-164 for one row: the probability that is
    appended to [adjusted]. *)
Definition penalise (detected_species : option string) (d : string) (p : Q) : Q :=
  let dspecies := disease_species !! d in
  match detected_species, dspecies with
  | Some sp, Some ds =>
      if truthy sp && truthy ds then
        if contains "_" ds then
          let parts := split "_" ds in
          if negb (mem sp parts) then p * penalty else p
        else
          if negb (String.eqb sp ds) then p * penalty else p
      else p
  | _, _ => p
  end.

Definition penalise_rows (detected_species : option string) (all_df : list Row)
    : list Row :=
  map (λ row, (row.1, penalise detected_species row.1 row.2)) all_df.

(** Lines 166-170: the divisor.  The comprehension at line 169 rebuilds
    [adjusted] from itself, and [or 1.0] replaces a zero sum by one. *)
Definition divisor (adjusted : list Row) : Q :=
  let total := py_sum (map snd adjusted) in
  if Qle_bool total 0 then
    let adjusted := map (λ row : Row, (row.1, row.2)) adjusted in
    let total := py_sum (map snd adjusted) in
    if Qeq_bool total 0 then 1 else total
  else total.

(** Line 171: [[(d, p / total) for d, p in adjusted]]. *)
Fixpoint divide_rows (adjusted : list Row) (total : Q) : PyError + list Row :=
  match adjusted with
  | [] => inr []
  | (d, p) :: rest =>
      match py_div p total with
      | inl e => inl e
      | inr q =>
          match divide_rows rest total with
          | inl e => inl e
          | inr rest' => inr ((d, q) :: rest')
          end
      end
  end.

Definition renormalise (adjusted : list Row) : PyError + list Row :=
  divide_rows adjusted (divisor adjusted).

(** Lines 149-171 as one function of the frame and the detected species. *)
Definition species_adjust (detected_species : option string) (all_df : list Row)
    : PyError + list Row :=
  renormalise (penalise_rows detected_species all_df).

(** ** Ranker (lines 174-175) *)

(** [sorted(adjusted, key=lambda x: x[1], reverse=True)]: Python's sort is
    stable also under [reverse=True], which determines its result; it is
    modelled by a stable insertion sort. *)
Fixpoint insert_desc (x : Row) (l : list Row) : list Row :=
  match l with
  | [] => [x]
  | y :: l' => if Qle_bool y.2 x.2 then x :: y :: l' else y :: insert_desc x l'
  end.

Definition sorted_desc (adjusted : list Row) : list Row :=
  foldr insert_desc [] adjusted.

Definition top_n : nat := 3.

Definition rank (adjusted : list Row) : list Row :=
  take top_n (sorted_desc adjusted).

(** ** Bander (lines 179-214) *)

Inductive Band : Set := High | Medium | Low.

(** An element of [chart_rows] (line 210); the band stands for the advice
    text and the card mark-up, which are functions of it. *)
Record ChartRow : Type := mkChartRow {
  Disease : string;
  Confidence : Q;
  Color : string;
  Severity : Band
}.

(** ** The numeric block on binary64 floats

    Lines 149-175 once more, with [float] for the probabilities.  [sum] is
    the plain left-to-right sum of CPython up to 3.11. *)

Module Binary64.

Abbreviation FRow := (string * float)%type.

Definition penalty : float := 0.05%float.

Definition py_sum (l : list float) : float := fold_left PrimFloat.add l 0%float.

Definition py_div (p total : float) : PyError + float :=
  if PrimFloat.eqb total 0%float then inl ZeroDivisionError
  else inr (PrimFloat.div p total).

Definition penalise (detected_species : option string) (d : string) (p : float)
    : float :=
  let dspecies := disease_species !! d in
  match detected_species, dspecies with
  | Some sp, Some ds =>
      if truthy sp && truthy ds then
        if contains "_" ds then
          let parts := split "_" ds in
          if negb (mem sp parts) then PrimFloat.mul p penalty else p
        else
          if negb (String.eqb sp ds) then PrimFloat.mul p penalty else p
      else p
  | _, _ => p
  end.

Definition penalise_rows (detected_species : option string)
    (all_df : list FRow) : list FRow :=
  map (λ row, (row.1, penalise detected_species row.1 row.2)) all_df.

Definition divisor (adjusted : list FRow) : float :=
  let total := py_sum (map snd adjusted) in
  if PrimFloat.leb total 0%float then
    let adjusted := map (λ row : FRow, (row.1, row.2)) adjusted in
    let total := py_sum (map snd adjusted) in
    if PrimFloat.eqb total 0%float then 1%float else total
  else total.

Fixpoint divide_rows (adjusted : list FRow) (total : float)
    : PyError + list FRow :=
  match adjusted with
  | [] => inr []
  | (d, p) :: rest =>
      match py_div p total with
      | inl e => inl e
      | inr q =>
          match divide_rows rest total with
          | inl e => inl e
          | inr rest' => inr ((d, q) :: rest')
          end
      end
  end.

Definition species_adjust (detected_species : option string)
    (all_df : list FRow) : PyError + list FRow :=
  let adjusted := penalise_rows detected_species all_df in
  divide_rows adjusted (divisor adjusted).

Fixpoint insert_desc (x : FRow) (l : list FRow) : list FRow :=
  match l with
  | [] => [x]
  | y :: l' =>
      if PrimFloat.leb y.2 x.2 then x :: y :: l' else y :: insert_desc x l'
  end.

Definition sorted_desc (adjusted : list FRow) : list FRow :=
  foldr insert_desc [] adjusted.

(** Lines 149-175 on a frame: the names of [top3]. *)
Definition top3_names (detected_species : option string) (all_df : list FRow)
    : PyError + list string :=
  match species_adjust detected_species all_df with
  | inl e => inl e
  | inr adjusted => inr (map fst (take top_n (sorted_desc adjusted)))
  end.

End Binary64.

(** ** The numeric block on rounded arithmetic

    Lines 149-171 once more, on rationals with the rounding of every
    arithmetic operation written out.  A binary64 operation returns the
    exact result rounded to the nearest representable number. *)

(** The exact sum of a list of numbers, against which [sum] is measured. *)
Definition exact_sum (l : list Q) : Q := foldr Qplus 0 l.

(** A natural number as a rational. *)
Definition Qn (k : nat) : Q := inject_Z (Z.of_nat k).

(** Unit roundoff of binary64, 2^-53. *)
Definition u64 : Q := 1 # (2 ^ 53).

(** Half of the smallest positive binary64 number, 2^-1075. *)
Definition eta64 : Q := 1 # (2 ^ 1075).

(** The smallest positive normal binary64 number, 2^-1022. *)
Definition pmin64 : Q := 1 # (2 ^ 1022).

(** The integer nearest to [y], ties to even. *)
Definition nearest_even (y : Q) : Z :=
  let f := Qfloor y in
  match Qcompare (y - inject_Z f) (1 # 2) with
  | Lt => f
  | Gt => (f + 1)%Z
  | Eq => if Z.even f then f else (f + 1)%Z
  end.

(** The exponent [k] with [2^k <= a < 2^(k+1)], for positive [a]. *)
Definition floor_log2 (a : Q) : Z :=
  let a' := Qred a in
  let k := (Z.log2 (Qnum a') - Z.log2 (Zpos (Qden a')))%Z in
  if Qle_bool (2 ^ k) a then k else (k - 1)%Z.

(** The exponent of the unit in the last place at [a]: 53 significant bits,
    and never below 2^-1074 (gradual underflow). *)
Definition ulp_exp (a : Q) : Z := Z.max (floor_log2 a - 52) (-1074).

Definition round_pos (a : Q) : Q :=
  let e := ulp_exp a in inject_Z (nearest_even (a / 2 ^ e)) * 2 ^ e.

(** Rounding to binary64, round to nearest even. *)
Definition round64 (x : Q) : Q :=
  match Qcompare x 0 with
  | Eq => 0
  | Gt => round_pos x
  | Lt => - round_pos (- x)
  end.

(** The rational a finite float stands for. *)
Definition SF_to_Q (f : spec_float) : option Q :=
  match f with
  | S754_zero _ => Some 0
  | S754_finite s m e => Some ((if s then -1 else 1) * inject_Z (Zpos m) * 2 ^ e)
  | _ => None
  end.

Definition to_Q (f : float) : option Q := SF_to_Q (Prim2SF f).

Module Rounded.

(** A rounding with the error model of binary64: the relative error is at
    most [u64], up to [eta64] in the subnormal range. *)
Class Rounding : Type := {
  rnd : Q → Q;
  rnd_proper :: Proper (Qeq ==> Qeq) rnd;
  rnd_zero : rnd 0 == 0;
  rnd_nonneg : ∀ x, 0 <= x → 0 <= rnd x;
  rnd_error : ∀ x, Qabs (rnd x - x) <= u64 * Qabs x + eta64
}.

Section Model.
Context `{Rounding}.

(** The literal [0.05] of lines 160 and 163. *)
Definition penalty : Q := rnd 0.05.

(** [sum(l)]: the plain left-to-right sum, each addition rounded. *)
Definition py_sum (l : list Q) : Q := fold_left (λ acc x, rnd (acc + x)) l 0.

(** [p / total], rounded; Python raises on a zero divisor. *)
Definition py_div (p total : Q) : PyError + Q :=
  if Qeq_bool total 0 then inl ZeroDivisionError else inr (rnd (p / total)).

(** Lines 150-164 for one row; [p *= 0.05] rounds the product. *)
Definition penalise (detected_species : option string) (d : string) (p : Q) : Q :=
  let dspecies := disease_species !! d in
  match detected_species, dspecies with
  | Some sp, Some ds =>
      if truthy sp && truthy ds then
        if contains "_" ds then
          let parts := split "_" ds in
          if negb (mem sp parts) then rnd (p * penalty) else p
        else
          if negb (String.eqb sp ds) then rnd (p * penalty) else p
      else p
  | _, _ => p
  end.

Definition penalise_rows (detected_species : option string) (all_df : list Row)
    : list Row :=
  map (λ row, (row.1, penalise detected_species row.1 row.2)) all_df.

Definition divisor (adjusted : list Row) : Q :=
  let total := py_sum (map snd adjusted) in
  if Qle_bool total 0 then
    let adjusted := map (λ row : Row, (row.1, row.2)) adjusted in
    let total := py_sum (map snd adjusted) in
    if Qeq_bool total 0 then 1 else total
  else total.

Fixpoint divide_rows (adjusted : list Row) (total : Q) : PyError + list Row :=
  match adjusted with
  | [] => inr []
  | (d, p) :: rest =>
      match py_div p total with
      | inl e => inl e
      | inr q =>
          match divide_rows rest total with
          | inl e => inl e
          | inr rest' => inr ((d, q) :: rest')
          end
      end
  end.

Definition renormalise (adjusted : list Row) : PyError + list Row :=
  divide_rows adjusted (divisor adjusted).

Definition species_adjust (detected_species : option string) (all_df : list Row)
    : PyError + list Row :=
  renormalise (penalise_rows detected_species all_df).

End Model.

End Rounded.

(** ** Collaborators *)

(** Descending order on the probability column. *)
Definition desc (a b : Row) : Prop := b.2 <= a.2.

(** Two lists of rows with the same names and equal probabilities. *)
Definition same_rows (l1 l2 : list Row) : Prop :=
  Forall2 (λ a b : Row, a.1 = b.1 ∧ a.2 == b.2) l1 l2.

Class Collaborators : Type := {
  (** [str.lower] *)
  lower : string → string;
  (** [str.strip] *)
  strip : string → string;
  (** vectoriser, classifier and label encoder: the rows
      [(classes[i], probs[i])] in the order of [model.classes_] *)
  predict : string → list Row;
  (** [DataFrame.sort_values("prob", ascending=False)]; pandas' default
      sort kind is not stable, so only permutation and order are assumed *)
  sort_values : list Row → list Row;
  sort_values_perm : ∀ df, sort_values df ≡ₚ df;
  sort_values_desc : ∀ df, Sorted desc (sort_values df)
}.

Section Pipeline.
Context `{Collaborators}.

(** Line 184-185: the Sinhala name of a disease. *)
Definition siname (disease : string) : string :=
  let key := lower (strip disease) in
  default si_missing (disease_si !! key).

(** One iteration of the loop at lines 182-210 on the state
    [(chart_rows, alert_triggered)]: the branch picks the colour and the
    advice and may raise the flag, then the row is appended. *)
Definition band_step (st : list ChartRow * bool) (entry : Row)
    : list ChartRow * bool :=
  let '(chart_rows, alert_triggered) := st in
  let '(disease, prob) := entry in
  let conf := prob * 100 in
  let bilingual := disease +:+ " (" +:+ siname disease +:+ ")" in
  let '(color, severity, alert_triggered) :=
    if Qle_bool 50 conf then ("#E74C3C", High, true)
    else if Qle_bool 20 conf then ("#F39C12", Medium, alert_triggered)
    else ("#27AE60", Low, alert_triggered) in
  (chart_rows ++ [mkChartRow bilingual conf color severity], alert_triggered).

Definition band_loop (top3 : list Row) : list ChartRow * bool :=
  fold_left band_step top3 ([], false).

(** Colour and band of a confidence percentage. *)
Definition banding (conf : Q) : string * Band :=
  if Qle_bool 50 conf then ("#E74C3C", High)
  else if Qle_bool 20 conf then ("#F39C12", Medium)
  else ("#27AE60", Low).

(** The chart row of a ranked entry. *)
Definition chart_row_of (entry : Row) : ChartRow :=
  let conf := entry.2 * 100 in
  mkChartRow (entry.1 +:+ " (" +:+ siname entry.1 +:+ ")") conf
    (banding conf).1 (banding conf).2.

(** The entry reaches the high band. *)
Definition is_high (entry : Row) : bool := Qle_bool 50 (entry.2 * 100).

(** What a completed request has computed. *)
Record Diagnosis : Type := mkDiagnosis {
  species_detected : option string;
  adjusted : list Row;
  top3 : list Row;
  chart_rows : list ChartRow;
  alert_triggered : bool
}.

Inductive Outcome : Type :=
  | EmptyInput
  | InvalidSymptoms
  | Raised (e : PyError)
  | Delivered (r : Diagnosis).

(** Lines 138-214 for a frame that passed the gate. *)
Definition rerank (user_input : string) (all_df : list Row) : Outcome :=
  let txt := lower user_input in
  let detected_species := detect_species txt in
  match species_adjust detected_species all_df with
  | inl e => Raised e
  | inr adjusted =>
      let top3 := rank adjusted in
      let '(chart_rows, alert_triggered) := band_loop top3 in
      Delivered (mkDiagnosis detected_species adjusted top3 chart_rows
                   alert_triggered)
  end.

(** The handler of the Diagnose button (lines 115-256).  Rendering and the
    history append are effects on the page and the log and leave the
    computed values unchanged; they are not modelled. *)
Definition diagnose (user_input : string) : Outcome :=
  if negb (truthy (strip user_input)) then EmptyInput
  else
    let all_df := sort_values (predict (lower user_input)) in
    match all_df with
    | [] => Raised KeyError
    | (_, prob0) :: _ =>
        if Qlt_bool prob0 0.10 then InvalidSymptoms
        else rerank user_input all_df
    end.

End Pipeline.

(** The ranking claim with ties in catalogue order: the ranked result is
    the head of the stable descending sort of the adjusted distribution
    listed in the order of the classifier's classes. *)
Definition ranked_in_catalogue_order : Prop :=
  ∀ (C : Collaborators) (user_input : string) (r : Diagnosis),
    diagnose user_input = Delivered r →
    ∃ adjusted_cat,
      species_adjust (species_detected r) (predict (lower user_input))
        = inr adjusted_cat ∧
      same_rows (top3 r) (take top_n (sorted_desc adjusted_cat)).

(** ** Specification-side notions *)

(** [k] occurs in [txt] as a contiguous substring. *)
Definition is_substring (k txt : string) : Prop :=
  ∃ pre post, txt = pre +:+ k +:+ post.

(** Some keyword of the list occurs in the text. *)
Definition keyword_match (txt : string) (keys : list string) : Prop :=
  ∃ k, k ∈ keys ∧ is_substring k txt.

(** The set of species a tag stands for: the members of the underscored
    group, or the single species. *)
Definition tag_set (ds : string) : list string := split "_" ds.

(** The disease is tagged and its tag set excludes the species. *)
Definition excludes (d sp : string) : Prop :=
  ∃ ds, disease_species !! d = Some ds ∧ sp ∉ tag_set ds.

(** The condition under which lines 160 and 163 run [p *= 0.05]. *)
Definition penalised (detected_species : option string) (d : string) : bool :=
  match detected_species, disease_species !! d with
  | Some sp, Some ds =>
      truthy sp && truthy ds &&
      (if contains "_" ds then negb (mem sp (split "_" ds))
       else negb (String.eqb sp ds))
  | _, _ => false
  end.

(** Selects the rows whose probability equals [q]. *)
Definition with_prob (q : Q) (l : list Row) : list Row :=
  List.filter (λ row : Row, Qeq_bool row.2 q) l.

(** The largest probability of a frame, [None] on an empty one. *)
Fixpoint max_prob (rows : list Row) : option Q :=
  match rows with
  | [] => None
  | (_, p) :: rest =>
      match max_prob rest with
      | None => Some p
      | Some m => Some (if Qle_bool m p then p else m)
      end
  end.

(** The keyword list of a species, [species_keywords.get(sp, [])]. *)
Definition keywords_of (sp : string) : list string :=
  match List.find (λ it : string * list string, String.eqb it.1 sp)
          species_keywords with
  | Some it => it.2
  | None => []
  end.

(** A raw distribution as the classifier contract gives it: no negative
    probability (the sum is stated where it is needed). *)
Definition nonneg_rows (rows : list Row) : Prop :=
  Forall (λ row : Row, 0 <= row.2) rows.

(** A raw distribution sums to 1: within 1e-9, which an exact sum of 1 and
    a float sum of exactly 1.0 both meet. *)
Definition sums_to_one (rows : list Row) : Prop :=
  Qabs (exact_sum (map snd rows) - 1) <= (1 # 1000000000).

(** The normaliser with the fallback as the specification words it: when
    the penalised total is not positive, the raw values renormalised, or
    the uniform distribution when the raw total is not positive either. *)
Definition spec_normalise `{Rounded.Rounding} (detected : option string)
    (rows : list Row) : list Row :=
  let penalised_rows := Rounded.penalise_rows detected rows in
  let total := Rounded.py_sum (map snd penalised_rows) in
  if Qle_bool total 0 then
    let raw_total := Rounded.py_sum (map snd rows) in
    if Qle_bool raw_total 0 then
      map (λ row : Row, (row.1, Rounded.rnd (1 / Qn (length rows)))) rows
    else map (λ row : Row, (row.1, Rounded.rnd (row.2 / raw_total))) rows
  else map (λ row : Row, (row.1, Rounded.rnd (row.2 / total))) penalised_rows.




(** Penalty monotonicity as the claim states it: a penalised row ends not
    above its raw probability, and strictly below a positive one. *)
Definition penalty_monotonicity `{Rounded.Rounding} : Prop :=
  ∀ (sp : string) (rows : list Row) (i : nat) (d : string) (p : Q),
    sp ≠ EmptyString → nonneg_rows rows → sums_to_one rows →
    rows !! i = Some (d, p) → excludes d sp →
    ∃ adjusted p',
      Rounded.species_adjust (Some sp) rows = inr adjusted ∧
      adjusted !! i = Some (d, p') ∧
      p' <= p ∧ (0 < p → p' < p).

(** Executable form of [keyword_match]. *)
Definition any_key (txt : string) (keys : list string) : bool :=
  existsb (λ k, contains k txt) keys.

(** * Python string primitives: correctness *)

Section StringFacts.

Lemma starts_with_spec k txt :
  starts_with k txt = true ↔ ∃ post, txt = k +:+ post.
Proof.
  revert txt. induction k as [|a k IH]; intros txt; simpl.
  - split; [intros _; by exists txt | done].
  - destruct txt as [|b txt].
    + split; [done | intros [post Hp]; discriminate].
    + rewrite andb_true_iff, Ascii.eqb_eq, IH. split.
      * intros [-> [post ->]]. by exists post.
      * intros [post Hp]. injection Hp as -> ->. eauto.
Qed.

Lemma contains_spec k txt : contains k txt = true ↔ is_substring k txt.
Proof.
  unfold is_substring. induction txt as [|b txt IH].
  - simpl. rewrite orb_false_r, starts_with_spec. split.
    + intros [post Hp]. by exists EmptyString, post.
    + intros [[|c pre] [post Hp]]; [by exists post | discriminate].
  - cbn [contains]. rewrite orb_true_iff, starts_with_spec, IH. split.
    + intros [[post Hp] | (pre & post & Hp)].
      * by exists EmptyString, post.
      * exists (String b pre), post. simpl. by rewrite Hp.
    + intros [[|c pre] [post Hp]].
      * left. by exists post.
      * right. simpl in Hp. injection Hp as -> ->. eauto.
Qed.

Lemma contains_false k txt : contains k txt = false ↔ ¬ is_substring k txt.
Proof.
  rewrite <- contains_spec. destruct (contains k txt); naive_solver.
Qed.

Lemma mem_spec x parts : mem x parts = true ↔ x ∈ parts.
Proof.
  unfold mem. rewrite existsb_exists. split.
  - intros (y & Hy & Heq). apply String.eqb_eq in Heq as ->.
    by apply list_elem_of_In.
  - intros Hx. exists x. split; [by apply list_elem_of_In|].
    apply String.eqb_refl.
Qed.

Lemma split_nonempty sep s : split sep s ≠ [].
Proof.
  destruct s as [|c s]; simpl; [done|].
  destruct (Ascii.eqb c sep); [done|]. by destruct (split sep s).
Qed.

(** Without the separator, [split] returns the string itself. *)
Lemma split_without_sep sep s :
  contains (String sep EmptyString) s = false → split sep s = [s].
Proof.
  induction s as [|c s IH]; [done|].
  cbn [contains starts_with]. rewrite orb_false_iff, andb_true_r.
  intros [Hc Hs]. simpl. rewrite Ascii.eqb_sym, Hc. by rewrite (IH Hs).
Qed.

End StringFacts.

(** * Species detector *)

Section Detector.

Lemma any_key_spec txt keys : any_key txt keys = true ↔ keyword_match txt keys.
Proof.
  unfold any_key, keyword_match. rewrite existsb_exists. split.
  - intros (k & Hk & Hc). exists k. split; [by apply list_elem_of_In|].
    by apply contains_spec.
  - intros (k & Hk & Hc). exists k. split; [by apply list_elem_of_In|].
    by apply contains_spec.
Qed.

Lemma any_key_false txt keys :
  any_key txt keys = false ↔ ¬ keyword_match txt keys.
Proof.
  rewrite <- any_key_spec. destruct (any_key txt keys); naive_solver.
Qed.

Lemma scan_keys_spec txt sp keys detected :
  scan_keys txt sp keys detected =
    if any_key txt keys then Some sp else detected.
Proof.
  induction keys as [|k keys IH]; simpl; [done|].
  destruct (contains k txt); [done | apply IH].
Qed.

(** The outer loop on a table whose species names are all non-empty:
    it stops at the first entry with a matching keyword. *)
Lemma scan_species_spec txt items :
  Forall (λ it, truthy it.1 = true) items →
  match scan_species txt items None with
  | Some sp =>
      ∃ before keys after,
        items = before ++ (sp, keys) :: after ∧
        any_key txt keys = true ∧
        Forall (λ it, any_key txt it.2 = false) before
  | None => Forall (λ it, any_key txt it.2 = false) items
  end.
Proof.
  induction items as [|[sp keys] items IH]; intros Hall; simpl; [done|].
  apply Forall_cons in Hall as [Hsp Hall]. simpl in Hsp.
  rewrite scan_keys_spec. destruct (any_key txt keys) eqn:Hk; simpl.
  - rewrite Hsp. by exists [], keys, items.
  - specialize (IH Hall). destruct (scan_species txt items None) as [sp'|].
    + destruct IH as (before & keys' & after & -> & Hm & Hb).
      exists ((sp, keys) :: before), keys', after. split; [done|].
      split; [done|]. by constructor.
    + by constructor.
Qed.

Lemma species_keywords_truthy :
  Forall (λ it, truthy it.1 = true) species_keywords.
Proof. repeat constructor. Qed.

End Detector.

(** * Sums and the divisor *)

Section Sums.

Lemma fold_left_Qplus_acc (l : list Q) (a : Q) :
  fold_left Qplus l a == a + py_sum l.
Proof.
  unfold py_sum. revert a. induction l as [|x l IH]; intros a; simpl.
  - ring.
  - rewrite (IH (a + x)), (IH (0 + x)). ring.
Qed.

Lemma py_sum_cons (x : Q) (l : list Q) : py_sum (x :: l) == x + py_sum l.
Proof.
  unfold py_sum at 1. simpl. rewrite fold_left_Qplus_acc. ring.
Qed.

Lemma py_sum_nonneg (l : list Q) : Forall (λ p, 0 <= p) l → 0 <= py_sum l.
Proof.
  induction 1 as [|x l Hx _ IH].
  - unfold py_sum. simpl. lra.
  - rewrite py_sum_cons. lra.
Qed.

(** The comprehension of line 169 is the identity. *)
Lemma rebuild_id (adjusted : list Row) :
  map (λ row : Row, (row.1, row.2)) adjusted = adjusted.
Proof.
  induction adjusted as [|[d p] rest IH]; simpl; [done | by rewrite IH].
Qed.

Lemma divisor_unfold (adjusted : list Row) :
  divisor adjusted =
    let total := py_sum (map snd adjusted) in
    if Qle_bool total 0 then (if Qeq_bool total 0 then 1 else total)
    else total.
Proof. unfold divisor. by rewrite rebuild_id. Qed.

(** The divisor of line 171 is never zero. *)
Lemma divisor_nonzero (adjusted : list Row) : ¬ divisor adjusted == 0.
Proof.
  rewrite divisor_unfold. cbv zeta.
  destruct (Qle_bool _ 0) eqn:Hle.
  - destruct (Qeq_bool _ 0) eqn:Heq.
    + lra.
    + intros Hz. apply Qeq_bool_iff in Hz. congruence.
  - intros Hz. assert (Qle_bool (py_sum (map snd adjusted)) 0 = true);
      [|congruence]. apply Qle_bool_iff. lra.
Qed.

(** With a positive sum the divisor is the sum. *)
Lemma divisor_positive (adjusted : list Row) :
  0 < py_sum (map snd adjusted) →
  divisor adjusted = py_sum (map snd adjusted).
Proof.
  intros Hpos. rewrite divisor_unfold. cbv zeta.
  destruct (Qle_bool _ 0) eqn:Hle; [|done].
  apply Qle_bool_iff in Hle. lra.
Qed.

(** With a zero sum the divisor is one. *)
Lemma divisor_zero (adjusted : list Row) :
  py_sum (map snd adjusted) == 0 → divisor adjusted = 1.
Proof.
  intros Hz. rewrite divisor_unfold. cbv zeta.
  assert (Qle_bool (py_sum (map snd adjusted)) 0 = true) as ->.
  { apply Qle_bool_iff. lra. }
  by apply Qeq_bool_iff in Hz as ->.
Qed.

Lemma divide_rows_nonzero (adjusted : list Row) (total : Q) :
  ¬ total == 0 →
  divide_rows adjusted total =
    inr (map (λ row : Row, (row.1, row.2 / total)) adjusted).
Proof.
  intros Ht. induction adjusted as [|[d p] rest IH]; simpl; [done|].
  unfold py_div. destruct (Qeq_bool total 0) eqn:Heq.
  - apply Qeq_bool_iff in Heq. contradiction.
  - by rewrite IH.
Qed.

(** Renormalisation never raises. *)
Lemma renormalise_total (adjusted : list Row) :
  renormalise adjusted =
    inr (map (λ row : Row, (row.1, row.2 / divisor adjusted)) adjusted).
Proof. apply divide_rows_nonzero, divisor_nonzero. Qed.

End Sums.

(** * Species penalty *)

Section Penalty.

Lemma penalise_unfold detected d p :
  penalise detected d p = if penalised detected d then p * penalty else p.
Proof.
  unfold penalise, penalised.
  destruct detected as [sp|]; [|done].
  destruct (disease_species !! d) as [ds|]; [|done].
  destruct (truthy sp), (truthy ds); simpl; try done.
  destruct (contains "_" ds); [by destruct (mem sp _)|].
  by destruct (String.eqb sp ds).
Qed.

(** Without a detected species, or without a tag, nothing is penalised. *)
Lemma penalise_untagged detected d p :
  detected = None ∨ disease_species !! d = None → penalise detected d p = p.
Proof.
  intros [-> | Hd]; unfold penalise; [done|].
  rewrite Hd. by destruct detected.
Qed.

(** Every tag of the catalogue is a non-empty string. *)
Lemma catalogue_tags_truthy d ds :
  disease_species !! d = Some ds → truthy ds = true.
Proof.
  intros Hd. apply elem_of_list_to_map_2 in Hd.
  repeat (apply elem_of_cons in Hd as [Hd|Hd]; [by inversion Hd|]).
  by apply elem_of_nil in Hd.
Qed.

(** Both branches of lines 156-163 test membership in the tag set. *)
Lemma penalised_tag_set sp d ds :
  truthy sp = true → disease_species !! d = Some ds →
  penalised (Some sp) d = negb (mem sp (tag_set ds)).
Proof.
  intros Hsp Hd. unfold penalised, tag_set.
  rewrite Hd, Hsp, (catalogue_tags_truthy _ _ Hd). simpl.
  destruct (contains "_" ds) eqn:Hu; [done|].
  rewrite (split_without_sep _ _ Hu). unfold mem. simpl.
  by rewrite orb_false_r.
Qed.

Lemma penalised_excludes sp d :
  truthy sp = true → penalised (Some sp) d = true ↔ excludes d sp.
Proof.
  intros Hsp. unfold excludes. split.
  - intros Hp. destruct (disease_species !! d) as [ds|] eqn:Hd.
    + exists ds. split; [done|].
      rewrite (penalised_tag_set _ _ _ Hsp Hd) in Hp.
      rewrite <- mem_spec. by destruct (mem sp (tag_set ds)).
    + unfold penalised in Hp. by rewrite Hd in Hp.
  - intros (ds & Hd & Hn). rewrite (penalised_tag_set _ _ _ Hsp Hd).
    rewrite <- mem_spec in Hn. by destruct (mem sp (tag_set ds)).
Qed.

Lemma penalise_bounds detected d p :
  0 <= p → p * penalty <= penalise detected d p ∧ penalise detected d p <= p.
Proof.
  intros Hp. rewrite penalise_unfold. unfold penalty.
  destruct (penalised detected d); lra.
Qed.

Lemma penalise_rows_names detected rows :
  map fst (penalise_rows detected rows) = map fst rows.
Proof. unfold penalise_rows. rewrite map_map. by apply map_ext. Qed.

Lemma penalise_rows_nonneg detected rows :
  Forall (λ row : Row, 0 <= row.2) rows →
  Forall (λ p, 0 <= p) (map snd (penalise_rows detected rows)).
Proof.
  induction 1 as [|[d p] rows Hp _ IH]; simpl; constructor; [|done].
  simpl in Hp. pose proof (penalise_bounds detected d p Hp). unfold penalty in *.
  lra.
Qed.

End Penalty.

(** * Stable descending sort *)

Section Ranking.

Lemma insert_desc_perm x l : insert_desc x l ≡ₚ x :: l.
Proof.
  induction l as [|y l IH]; simpl; [done|].
  destruct (Qle_bool y.2 x.2); [done|].
  rewrite IH. apply Permutation_swap.
Qed.

Lemma sorted_desc_perm l : sorted_desc l ≡ₚ l.
Proof.
  induction l as [|x l IH]; simpl; [done|].
  unfold sorted_desc in *. simpl. by rewrite insert_desc_perm, IH.
Qed.

Lemma insert_desc_HdRel a x l :
  desc a x → HdRel desc a l → HdRel desc a (insert_desc x l).
Proof.
  intros Hax Hal. destruct l as [|y l]; simpl; [by constructor|].
  destruct (Qle_bool y.2 x.2); constructor; [done|].
  by inversion Hal.
Qed.

Lemma insert_desc_sorted x l : Sorted desc l → Sorted desc (insert_desc x l).
Proof.
  induction 1 as [|y l Hl IH Hy]; simpl; [by repeat constructor|].
  destruct (Qle_bool y.2 x.2) eqn:Hle.
  - apply Qle_bool_iff in Hle. by repeat constructor.
  - constructor; [done|]. apply insert_desc_HdRel; [|done].
    unfold desc. destruct (Qlt_le_dec y.2 x.2) as [Hlt|Hge].
    + apply Qlt_le_weak in Hlt. apply Qle_bool_iff in Hlt. congruence.
    + done.
Qed.

Lemma sorted_desc_sorted l : Sorted desc (sorted_desc l).
Proof.
  induction l as [|x l IH]; [constructor|].
  unfold sorted_desc in *. simpl. by apply insert_desc_sorted.
Qed.

(** Insertion puts [x] in front of every row of the same probability. *)
Lemma insert_desc_stable q x l :
  with_prob q (insert_desc x l) = with_prob q (x :: l).
Proof.
  unfold with_prob. induction l as [|y l IH]; [done|].
  cbn [insert_desc]. destruct (Qle_bool y.2 x.2) eqn:Hle; [done|].
  cbn [List.filter] in *. rewrite IH.
  destruct (Qeq_bool x.2 q) eqn:Hx; [|done].
  destruct (Qeq_bool y.2 q) eqn:Hy; [|done].
  apply Qeq_bool_iff in Hx, Hy.
  assert (Qle_bool y.2 x.2 = true); [|congruence].
  apply Qle_bool_iff. rewrite Hx, Hy. apply Qle_refl.
Qed.

(** Rows of equal probability keep the order they had in the input. *)
Lemma sorted_desc_stable q l : with_prob q (sorted_desc l) = with_prob q l.
Proof.
  induction l as [|x l IH]; [done|].
  unfold sorted_desc in *. simpl. rewrite insert_desc_stable.
  unfold with_prob in *. simpl. by rewrite IH.
Qed.

Lemma rank_length l : (length (rank l) ≤ 3)%nat.
Proof. unfold rank, top_n. rewrite length_take. lia. Qed.

Lemma max_prob_bound rows m :
  max_prob rows = Some m → Forall (λ row : Row, row.2 <= m) rows.
Proof.
  revert m. induction rows as [|[d p] rows IH]; intros m; simpl; [done|].
  destruct (max_prob rows) as [m'|] eqn:Hm.
  - intros [= <-]. specialize (IH m' eq_refl).
    destruct (Qle_bool m' p) eqn:Hle.
    + apply Qle_bool_iff in Hle. constructor; [apply Qle_refl|].
      eapply Forall_impl; [exact IH|]. intros r Hr. simpl in *. lra.
    + constructor; [|done]. simpl.
      destruct (Qlt_le_dec m' p) as [Hlt|Hge]; [|done].
      apply Qlt_le_weak in Hlt. apply Qle_bool_iff in Hlt. congruence.
  - intros [= <-]. destruct rows as [|[d' p'] rows]; [|simpl in Hm].
    + constructor; [apply Qle_refl | constructor].
    + by destruct (max_prob rows).
Qed.

End Ranking.

(** * The request handler *)

Section Handler.
Context `{Collaborators}.

Lemma species_adjust_total detected all_df :
  species_adjust detected all_df =
    let penalised_rows := penalise_rows detected all_df in
    inr (map (λ row : Row, (row.1, row.2 / divisor penalised_rows))
           penalised_rows).
Proof. unfold species_adjust. apply renormalise_total. Qed.

Lemma band_step_spec chart alert entry :
  band_step (chart, alert) entry =
    (chart ++ [chart_row_of entry], alert || is_high entry).
Proof.
  destruct entry as [disease prob].
  unfold chart_row_of, is_high, band_step, banding. simpl.
  destruct (Qle_bool 50 (prob * 100)); simpl.
  - by rewrite orb_true_r.
  - rewrite orb_false_r. by destruct (Qle_bool 20 (prob * 100)).
Qed.

Lemma band_fold_spec entries chart alert :
  fold_left band_step entries (chart, alert) =
    (chart ++ map chart_row_of entries, alert || existsb is_high entries).
Proof.
  revert chart alert.
  induction entries as [|e entries IH]; intros; cbn [fold_left map existsb].
  - by rewrite app_nil_r, orb_false_r.
  - rewrite band_step_spec, IH, <- app_assoc, orb_assoc. done.
Qed.

Lemma band_loop_spec entries :
  band_loop entries = (map chart_row_of entries, existsb is_high entries).
Proof. unfold band_loop. by rewrite band_fold_spec. Qed.

Lemma chart_row_confidence entry :
  Confidence (chart_row_of entry) = entry.2 * 100.
Proof.
  done.
Qed.

(** Past the gate the handler always delivers. *)
Lemma rerank_spec user_input all_df :
  ∃ r, rerank user_input all_df = Delivered r ∧
    species_detected r = detect_species (lower user_input) ∧
    species_adjust (species_detected r) all_df = inr (adjusted r) ∧
    top3 r = rank (adjusted r) ∧
    chart_rows r = map chart_row_of (top3 r) ∧
    alert_triggered r = existsb is_high (top3 r).
Proof.
  unfold rerank.
  destruct (species_adjust _ all_df) as [e|adj] eqn:Hadj.
  - by rewrite species_adjust_total in Hadj.
  - destruct (band_loop (rank adj)) as [chart alert] eqn:Hb.
    rewrite band_loop_spec in Hb. injection Hb as <- <-.
    eexists. split; [done|]. by simpl.
Qed.

(** What a delivered diagnosis holds. *)
Lemma diagnose_delivered user_input r :
  diagnose user_input = Delivered r →
  let all_df := sort_values (predict (lower user_input)) in
  truthy (strip user_input) = true ∧
  species_detected r = detect_species (lower user_input) ∧
  species_adjust (species_detected r) all_df = inr (adjusted r) ∧
  top3 r = rank (adjusted r) ∧
  chart_rows r = map chart_row_of (top3 r) ∧
  alert_triggered r = existsb is_high (top3 r).
Proof.
  unfold diagnose. destruct (truthy (strip user_input)); [|done]. simpl.
  destruct (sort_values _) as [|[d0 prob0] rest] eqn:Hdf; [done|].
  destruct (Qlt_bool prob0 0.10); [done|].
  destruct (rerank_spec user_input ((d0, prob0) :: rest)) as (r' & -> & Hr).
  by intros [= <-].
Qed.

(** The first row of the sorted frame carries the largest probability. *)
Lemma sorted_frame_head rows m :
  max_prob rows = Some m →
  ∃ d0 prob0 rest, sort_values rows = (d0, prob0) :: rest ∧ prob0 <= m.
Proof.
  intros Hm. pose proof (sort_values_perm rows) as Hperm.
  destruct (sort_values rows) as [|[d0 prob0] rest].
  - apply Permutation_nil_l in Hperm. by subst.
  - exists d0, prob0, rest. split; [done|].
    apply max_prob_bound in Hm. rewrite Forall_forall in Hm.
    apply (Hm (d0, prob0)). rewrite <- Hperm. by left.
Qed.

End Handler.

(** * Claims about the species detector *)

(** C7.  On the lowercased text [txt] of line 138 the detector returns the
    first species, in the iteration order dog, cat, cow, one of whose
    keywords is a substring of [txt]; it returns [None] when no keyword of
    any species is a substring.  The result is a single optional species. *)
Theorem detector_first_match (txt : string) :
  map fst species_keywords = ["dog"; "cat"; "cow"] ∧
  match detect_species txt with
  | Some sp =>
      ∃ before keys after,
        species_keywords = before ++ (sp, keys) :: after ∧
        keyword_match txt keys ∧
        ∀ sp' keys', (sp', keys') ∈ before → ¬ keyword_match txt keys'
  | None =>
      ∀ sp keys, (sp, keys) ∈ species_keywords → ¬ keyword_match txt keys
  end.
Proof.
  split; [done|]. unfold detect_species.
  pose proof (scan_species_spec txt _ species_keywords_truthy) as Hs.
  destruct (scan_species txt species_keywords None) as [sp|].
  - destruct Hs as (before & keys & after & Heq & Hm & Hb).
    exists before, keys, after. split; [done|].
    split; [by apply any_key_spec|].
    intros sp' keys' Hin. rewrite Forall_forall in Hb.
    by apply any_key_false, (Hb (sp', keys')).
  - intros sp keys Hin. rewrite Forall_forall in Hs.
    by apply any_key_false, (Hs (sp, keys)).
Qed.

(** C9.  A text that contains the cow keyword "cattle" and no dog keyword
    is detected as "cat": "cat" is a substring of "cattle" and cat is
    visited before cow.  The text is the lowercased one the detector scans. *)
Theorem cattle_detected_as_cat (txt : string) :
  is_substring "cattle" txt →
  ¬ keyword_match txt (keywords_of "dog") →
  "cattle" ∈ keywords_of "cow" ∧ detect_species txt = Some "cat".
Proof.
  intros (pre & post & Htxt) Hdog. split.
  { apply list_elem_of_In. vm_compute. auto. }
  apply any_key_false in Hdog.
  assert (any_key txt (keywords_of "cat") = true) as Hcat.
  { apply any_key_spec. exists "cat". split.
    - apply list_elem_of_In. vm_compute. auto.
    - exists pre, ("tle" +:+ post). by rewrite Htxt. }
  unfold detect_species. cbn [species_keywords scan_species].
  rewrite !scan_keys_spec.
  change (any_key txt (keywords_of "dog")) with
    (any_key txt (species_keywords !!! 0%nat).2) in Hdog.
  change (any_key txt (keywords_of "cat")) with
    (any_key txt (species_keywords !!! 1%nat).2) in Hcat.
  cbn [species_keywords lookup_total list_lookup_total snd] in Hdog, Hcat.
  by rewrite Hdog, Hcat.
Qed.

Lemma cattle_detected_as_cat_witness :
  is_substring "cattle" "my cattle have fever" ∧
  detect_species "my cattle have fever" = Some "cat".
Proof.
  assert (is_substring "cattle" "my cattle have fever") as Hsub.
  { by apply contains_spec. }
  split; [exact Hsub|].
  apply (cattle_detected_as_cat "my cattle have fever" Hsub).
  by apply any_key_false.
Defined.

(** * Claims about the species penalty *)

(** C3.  Penalty policy per row, before renormalisation: with no detected
    species or no species tag the probability is unchanged; with a single
    tag it is multiplied by 0.05 when the tag differs from the detected
    species; with an underscored group it is multiplied by 0.05 when the
    detected species is not a member and unchanged when it is. *)
Theorem penalty_policy (detected : option string) (d : string) (p : Q) :
  (detected = None ∨ disease_species !! d = None → penalise detected d p = p) ∧
  (∀ sp ds,
     detected = Some sp → sp ≠ EmptyString → disease_species !! d = Some ds →
     (¬ is_substring "_" ds →
        (sp ≠ ds → penalise detected d p = p * 0.05) ∧
        (sp = ds → penalise detected d p = p)) ∧
     (is_substring "_" ds →
        (sp ∉ tag_set ds → penalise detected d p = p * 0.05) ∧
        (sp ∈ tag_set ds → penalise detected d p = p))).
Proof.
  split; [apply penalise_untagged|].
  intros sp ds -> Hsp Hd. unfold penalise, tag_set. rewrite Hd.
  {
    assert (truthy sp = true) as -> by (by destruct sp).
    rewrite (catalogue_tags_truthy _ _ Hd). cbn [andb].
    split; intros Hu.
    + apply contains_false in Hu. rewrite Hu. split.
      * intros Hne. apply String.eqb_neq in Hne. by rewrite Hne.
      * intros ->. by rewrite String.eqb_refl.
    + apply contains_spec in Hu. rewrite Hu. split.
      * intros Hn. rewrite <- mem_spec in Hn.
        by destruct (mem sp (split "_" ds)).
      * intros Hin. apply mem_spec in Hin. by rewrite Hin. }
Qed.

Lemma penalty_policy_witness :
  penalise (Some "cow") "Parvovirus" 0.6 = 0.6 * 0.05 ∧
  penalise (Some "cow") "Arthritis" 0.1 = 0.1 ∧
  penalise (Some "cat") "Arthritis" 0.1 = 0.1 * 0.05 ∧
  penalise None "Parvovirus" 0.6 = 0.6.
Proof.
  assert (∀ sp : string, truthy sp = true → sp ≠ EmptyString) as Hne.
  { by intros [|c sp]. }
  assert (∀ k txt, contains k txt = false → ¬ is_substring k txt) as Hno.
  { intros k txt. apply contains_false. }
  assert (∀ x l, mem x l = false → x ∉ l) as Hout.
  { intros x l Hm Hin. apply mem_spec in Hin. congruence. }
  split; [|split; [|split]].
  - destruct (penalty_policy (Some "cow") "Parvovirus" 0.6) as [_ Hp].
    destruct (Hp "cow" "dog" eq_refl (Hne "cow" eq_refl) eq_refl) as [Hsingle _].
    apply (Hsingle (Hno "_" "dog" eq_refl)). discriminate.
  - destruct (penalty_policy (Some "cow") "Arthritis" 0.1) as [_ Hp].
    destruct (Hp "cow" "dog_cow" eq_refl (Hne "cow" eq_refl) eq_refl) as [_ Hgroup].
    apply Hgroup; [by apply contains_spec | by apply mem_spec].
  - destruct (penalty_policy (Some "cat") "Arthritis" 0.1) as [_ Hp].
    destruct (Hp "cat" "dog_cow" eq_refl (Hne "cat" eq_refl) eq_refl) as [_ Hgroup].
    apply Hgroup; [by apply contains_spec | by apply Hout].
  - apply (proj1 (penalty_policy None "Parvovirus" 0.6)). by left.
Defined.

(** Two catalogue keys with the same lowercase form are the same key. *)
Lemma catalogue_keys_case (d d0 : string) :
  d ∈ dom disease_species → d0 ∈ dom disease_species →
  ascii_lower d = ascii_lower d0 → d = d0.
Proof.
  unfold disease_species. rewrite dom_list_to_map_L.
  rewrite !elem_of_list_to_set. intros Hd Hd0 Hl.
  cbn [fmap list_fmap fst] in Hd, Hd0.
  repeat (apply elem_of_cons in Hd as [->|Hd]);
    try (by apply elem_of_nil in Hd);
    repeat (apply elem_of_cons in Hd0 as [->|Hd0]);
    try (by apply elem_of_nil in Hd0); try done; vm_compute in Hl; discriminate.
Qed.

(** C10.  The species tag is looked up under the disease identifier as
    given: an identifier that is not a key of [disease_species] -- among
    them every identifier that differs from a key only in letter case -- is
    untagged and is never penalised.  The display name is looked up under
    the stripped and lowercased identifier, and a missing name gives the
    placeholder. *)
Theorem tag_lookup_verbatim `{Collaborators} (d : string) :
  (d ∉ dom disease_species →
     disease_species !! d = None ∧
     ∀ detected p, penalise detected d p = p) ∧
  (∀ d0, d0 ∈ dom disease_species → d ≠ d0 →
     ascii_lower d = ascii_lower d0 → d ∉ dom disease_species) ∧
  siname d = match disease_si !! lower (strip d) with
             | Some name => name
             | None => si_missing
             end.
Proof.
  split; [|split].
  - intros Hd. apply not_elem_of_dom in Hd. split; [done|].
    intros detected p. apply penalise_untagged. by right.
  - intros d0 Hd0 Hne Hl Hd. by apply Hne, catalogue_keys_case.
  - unfold siname. by destruct (disease_si !! lower (strip d)).
Qed.

(** * Rounding error of the numeric block *)

Lemma Qmult_le_nonneg_l (c a b : Q) : 0 <= c → a <= b → c * a <= c * b.
Proof.
  intros Hc Hab. rewrite !(Qmult_comm c). by apply Qmult_le_compat_r.
Qed.


(** Error analysis for an arbitrary rounding [rnd] with relative error [u]
    and absolute error [η]. *)
Section Analysis.
Variable rnd : Q → Q.
Variables u η : Q.
Hypothesis Hu0 : 0 <= u.
Hypothesis Hu : u <= 12 # 100000000000000000.
Hypothesis Hη0 : 0 <= η.
Hypothesis Hη : η <= 1 # 1000000000000000000000000000000.
Hypothesis rnd_nonneg : ∀ x, 0 <= x → 0 <= rnd x.
Hypothesis rnd_error : ∀ x, Qabs (rnd x - x) <= u * Qabs x + η.

(** The sum of line 166 for the rounding [rnd]. *)
Definition fsum (l : list Q) : Q := fold_left (λ acc x, rnd (acc + x)) l 0.

Lemma rnd_bounds x :
  0 <= x → x - (u * x + η) <= rnd x ∧ rnd x <= x + (u * x + η).
Proof.
  intros Hx. pose proof (rnd_error x) as He.
  rewrite (Qabs_pos x Hx) in He. apply Qabs_Qle_condition in He. lra.
Qed.

Lemma Qn_succ k : Qn (S k) == Qn k + 1.
Proof. unfold Qn. rewrite Nat2Z.inj_succ, <- Z.add_1_r, inject_Z_plus. reflexivity. Qed.

Lemma Qn_nonneg k : 0 <= Qn k.
Proof. unfold Qn. change 0 with (inject_Z 0). rewrite <- Zle_Qle. lia. Qed.

Lemma Qn_le (k n : nat) : (k ≤ n)%nat → Qn k <= Qn n.
Proof. intros Hk. unfold Qn. rewrite <- Zle_Qle. lia. Qed.

Lemma Qn_1000 : Qn 1000 == 1000.
Proof. reflexivity. Qed.


Lemma exact_sum_nonneg l : Forall (λ x, 0 <= x) l → 0 <= exact_sum l.
Proof. induction 1 as [|x l Hx _ IH]; simpl; lra. Qed.

(** Accumulated rounding error of the left-to-right sum. *)
Lemma fold_error (M : Q) l :
  ∀ acc a k,
    Forall (λ x, 0 <= x) l → 0 <= acc → 0 <= a →
    a + exact_sum l <= M →
    (k + length l ≤ 1000)%nat →
    Qabs (acc - a) <= 2 * Qn k * (u * M + η) →
    Qabs (fold_left (λ acc x, rnd (acc + x)) l acc - (a + exact_sum l))
      <= 2 * Qn (k + length l) * (u * M + η).
Proof.
  induction l as [|x l IH]; intros acc a k Hl Hacc Ha HM Hk He.
  - cbn [fold_left exact_sum foldr length]. rewrite Nat.add_0_r.
    apply Qabs_Qle_condition in He. apply Qabs_Qle_condition. lra.
  - apply Forall_cons in Hl as [Hx Hl]. cbn [fold_left exact_sum foldr length].
    change (foldr Qplus 0 l) with (exact_sum l) in *.
    pose proof (exact_sum_nonneg l Hl) as Hs.
    cbn [exact_sum foldr] in HM. change (foldr Qplus 0 l) with (exact_sum l) in HM.
    assert (a + (x + exact_sum l) == (a + x) + exact_sum l) as -> by ring.
    replace (k + S (length l))%nat with (S k + length l)%nat by lia.
    apply IH; [done | apply rnd_nonneg; lra | lra | lra | simpl in Hk; lia |].
    destruct (rnd_bounds (acc + x)) as [Hlo Hhi]; [lra|].
    apply Qabs_Qle_condition in He as [He1 He2].
    pose proof (Qn_nonneg k) as Hk0.
    assert (Qn k <= 1000) as Hk1000.
    { rewrite <- Qn_1000. apply Qn_le. simpl in Hk. lia. }
    set (w := u * M + η) in *.
    assert (0 <= M) as HM0 by lra.
    assert (0 <= w) as Hw.
    { unfold w. assert (0 <= u * M) by (apply Qmult_le_0_compat; lra). lra. }
    set (t := Qn k * w) in *.
    assert (0 <= t) as Ht by (apply Qmult_le_0_compat; lra).
    assert (2 * Qn k * w == 2 * t) as Ht2 by (unfold t; ring).
    rewrite Ht2 in He1, He2.
    assert (u * (acc + x) <= u * M + 2 * (u * t)) as Hmul.
    { assert (u * (acc + x) <= u * (M + 2 * t)); [|lra].
      apply Qmult_le_nonneg_l; lra. }
    assert (2 * (u * t) <= w) as Hsmall.
    { assert (2 * (u * t) == (2 * Qn k * u) * w) as -> by (unfold t; ring).
      assert (2 * Qn k * u <= 1) as H1.
      { assert (Qn k * u <= 1000 * (12 # 100000000000000000)); [|lra].
        apply Qmult_le_compat_nonneg; lra. }
      apply (Qmult_le_compat_r _ _ w) in H1; [lra|done]. }
    rewrite Qn_succ.
    assert (2 * (Qn k + 1) * w == 2 * t + 2 * w) as -> by (unfold t; ring).
    apply Qabs_Qle_condition. unfold w in *. lra.
Qed.


Lemma fsum_error l :
  Forall (λ x, 0 <= x) l → (length l ≤ 1000)%nat →
  Qabs (fsum l - exact_sum l) <= 2000 * (u * exact_sum l + η).
Proof.
  intros Hl Hn. pose proof (exact_sum_nonneg l Hl) as Hs.
  pose proof (fold_error (exact_sum l) l 0 0 0%nat Hl) as He.
  assert (0 <= u * exact_sum l) by (apply Qmult_le_0_compat; lra).
  assert (Qabs (0 - 0) <= 2 * Qn 0 * (u * exact_sum l + η)) as H00.
  { apply Qabs_Qle_condition. change (Qn 0) with 0. lra. }
  assert (0 + exact_sum l <= exact_sum l) as H0l by lra.
  specialize (He (Qle_refl 0) (Qle_refl 0) H0l Hn H00).
  simpl (0 + length l)%nat in He.
  assert (0 + exact_sum l == exact_sum l) as H0 by ring.
  rewrite H0 in He. unfold fsum.
  eapply Qle_trans; [exact He|].
  assert (Qn (length l) <= 1000) as Hq.
  { rewrite <- Qn_1000. by apply Qn_le. }
  assert (2 * Qn (length l) * (u * exact_sum l + η)
          == (u * exact_sum l + η) * (2 * Qn (length l))) as -> by ring.
  assert (2000 * (u * exact_sum l + η) == (u * exact_sum l + η) * 2000) as -> by ring.
  apply Qmult_le_nonneg_l; lra.
Qed.

Lemma exact_sum_scaled (l : list Q) (t : Q) :
  ¬ t == 0 → exact_sum (map (λ x, x / t) l) == exact_sum l / t.
Proof.
  intros Ht. induction l as [|x l IH]; cbn [map exact_sum foldr].
  - field. done.
  - change (foldr Qplus 0 (map (λ x, x / t) l)) with (exact_sum (map (λ x, x / t) l)).
    change (foldr Qplus 0 l) with (exact_sum l). rewrite IH. field. done.
Qed.

(** Rounding each quotient moves the exact sum by little. *)
Lemma quotients_error (l : list Q) (t : Q) :
  0 < t → Forall (λ x, 0 <= x) l →
  Forall (λ q, 0 <= q) (map (λ x, rnd (x / t)) l) ∧
  Qabs (exact_sum (map (λ x, rnd (x / t)) l) - exact_sum (map (λ x, x / t) l))
    <= u * exact_sum (map (λ x, x / t) l) + Qn (length l) * η.
Proof.
  intros Ht. induction 1 as [|x l Hx Hl [IH1 IH2]]; cbn [map exact_sum foldr length].
  - split; [constructor|]. apply Qabs_Qle_condition. change (Qn 0) with 0. lra.
  - change (foldr Qplus 0 (map (λ x, rnd (x / t)) l))
      with (exact_sum (map (λ x, rnd (x / t)) l)) in *.
    change (foldr Qplus 0 (map (λ x, x / t) l))
      with (exact_sum (map (λ x, x / t) l)) in *.
    assert (0 <= x / t) as Hy by (apply Qle_shift_div_l; lra).
    destruct (rnd_bounds (x / t) Hy) as [Hlo Hhi].
    split; [constructor; [by apply rnd_nonneg | done]|].
    rewrite Qn_succ. apply Qabs_Qle_condition in IH2. apply Qabs_Qle_condition.
    lra.
Qed.

(** Renormalising a list whose exact total is neither tiny nor large. *)
Lemma renormalised_sum (xs : list Q) :
  Forall (λ x, 0 <= x) xs → (length xs ≤ 1000)%nat →
  4 # 100 <= exact_sum xs → exact_sum xs <= 2 →
  let T := fsum xs in
  let qs := map (λ x, rnd (x / T)) xs in
  39 # 1000 <= T ∧
  Qabs (T - exact_sum xs) <= 2400 * u * exact_sum xs + 2000 * η ∧
  Forall (λ q, 0 <= q) qs ∧
  Qabs (exact_sum qs - 1) <= 1 # 10000000000 ∧
  Qabs (fsum qs - 1) <= 1 # 10000000000.
Proof.
  intros Hxs Hn Hlo Hhi T qs.
  pose proof (fsum_error xs Hxs Hn) as HT. fold T in HT.
  set (σ := exact_sum xs) in *.
  apply Qabs_Qle_condition in HT as [HT1 HT2].
  assert (0 <= u * σ) as Huσ by (apply Qmult_le_0_compat; lra).
  assert (u * σ <= (12 # 100000000000000000) * 2) as Huσ2.
  { apply Qmult_le_compat_nonneg; lra. }
  assert (39 # 1000 <= T) as HTlo by lra.
  split; [done|]. split; [apply Qabs_Qle_condition; lra|].
  assert (0 < T) as HTpos by lra.
  destruct (quotients_error xs T HTpos Hxs) as [Hq HQ].
  fold qs in Hq, HQ. split; [done|].
  rewrite exact_sum_scaled in HQ by lra. fold σ in HQ.
  set (Y := σ / T) in *.
  assert (Y * T == σ) as HY by (unfold Y; field; lra).
  assert (1 - (2 # 100000000000) <= Y ∧ Y <= 1 + (2 # 100000000000)) as [HY1 HY2].
  { split.
    - apply Qle_shift_div_l; [done|]. lra.
    - apply Qle_shift_div_r; [done|]. lra. }
  assert (0 <= u * Y) as HuY by (apply Qmult_le_0_compat; lra).
  assert (u * Y <= (12 # 100000000000000000) * 2) as HuY2.
  { apply Qmult_le_compat_nonneg; lra. }
  assert (Qn (length xs) <= 1000) as Hq1000.
  { rewrite <- Qn_1000. by apply Qn_le. }
  assert (0 <= Qn (length xs) * η ∧ Qn (length xs) * η <= 1000 * η) as [Hnη0 Hnη].
  { pose proof (Qn_nonneg (length xs)). split.
    - apply Qmult_le_0_compat; lra.
    - apply Qmult_le_compat_r; lra. }
  apply Qabs_Qle_condition in HQ as [HQ1 HQ2].
  set (Qs := exact_sum qs) in *.
  assert (Qabs (Qs - 1) <= 3 # 100000000000) as HQs.
  { apply Qabs_Qle_condition. lra. }
  split; [apply Qabs_Qle_condition; apply Qabs_Qle_condition in HQs; lra|].
  assert (length qs ≤ 1000)%nat as Hnq by (unfold qs; by rewrite length_map).
  pose proof (fsum_error qs Hq Hnq) as HS. fold Qs in HS.
  apply Qabs_Qle_condition in HS as [HS1 HS2].
  apply Qabs_Qle_condition in HQs as [HQs1 HQs2].
  assert (0 <= u * Qs) as HuQ by (apply Qmult_le_0_compat; lra).
  assert (u * Qs <= (12 # 100000000000000000) * 2) as HuQ2.
  { apply Qmult_le_compat_nonneg; lra. }
  apply Qabs_Qle_condition. lra.
Qed.

End Analysis.

(** * Binary64 rounding has the error model *)

Lemma nearest_even_error (y : Q) :
  Qabs (inject_Z (nearest_even y) - y) <= 1 # 2.
Proof.
  unfold nearest_even. cbv zeta.
  pose proof (Qfloor_le y) as Hlo. pose proof (Qlt_floor y) as Hhi.
  rewrite inject_Z_plus in Hhi. change (inject_Z 1) with 1 in Hhi.
  apply Qabs_Qle_condition.
  destruct (Qcompare_spec (y - inject_Z (Qfloor y)) (1 # 2)) as [He|Hl|Hg].
  - destruct (Z.even (Qfloor y));
      [|rewrite inject_Z_plus; change (inject_Z 1) with 1]; split; lra.
  - split; lra.
  - rewrite inject_Z_plus. change (inject_Z 1) with 1. split; lra.
Qed.

Lemma nearest_even_nonneg (y : Q) : 0 <= y -> (0 <= nearest_even y)%Z.
Proof.
  intros Hy. assert (0 <= Qfloor y)%Z as Hf.
  { change 0%Z with (Qfloor 0). apply Qfloor_resp_le; assumption. }
  unfold nearest_even. cbv zeta.
  destruct (Qcompare _ _); [destruct (Z.even _)| |]; lia.
Qed.

Lemma pow2_pos (e : Z) : 0 < 2 ^ e.
Proof. apply Qpower_0_lt. reflexivity. Qed.

Lemma pow2_inject (z : Z) : (0 <= z)%Z -> inject_Z (2 ^ z) == 2 ^ z.
Proof. intros Hz. rewrite Zpower_Qpower; [reflexivity|assumption]. Qed.

Lemma floor_log2_lower (a : Q) : 0 < a -> 2 ^ floor_log2 a <= a.
Proof.
  intros Ha. unfold floor_log2. cbv zeta.
  destruct (Qle_bool _ a) eqn:Hb; [apply Qle_bool_iff in Hb; assumption|].
  assert (Qred a == a) as Hred by apply Qred_correct.
  destruct (Qred a) as [n d] eqn:Hra. cbn [Qnum Qden] in *.
  assert (0 < n)%Z as Hn.
  { rewrite <- Hred in Ha. unfold Qlt in Ha. simpl in Ha. lia. }
  pose proof (Z.log2_spec n Hn) as [Hn1 _].
  pose proof (Z.log2_spec (Zpos d) eq_refl) as [_ Hd2].
  pose proof (Z.log2_nonneg n) as Hln. pose proof (Z.log2_nonneg (Zpos d)) as Hld.
  set (ln := Z.log2 n) in *. set (ld := Z.log2 (Zpos d)) in *.
  replace (ln - ld - 1)%Z with (ln + - (ld + 1))%Z by lia.
  rewrite Qpower_plus by discriminate. rewrite Qpower_opp.
  rewrite <- (pow2_inject ln), <- (pow2_inject (ld + 1)) by lia.
  rewrite <- Hred. unfold Qle, Qinv, Qmult. simpl.
  assert (0 < 2 ^ (ld + 1))%Z as Hp by (apply Z.pow_pos_nonneg; lia).
  destruct (2 ^ (ld + 1))%Z as [|p|p] eqn:Hpow; try lia. simpl.
  nia.
Qed.

Lemma round_pos_nonneg (a : Q) : 0 <= a -> 0 <= round_pos a.
Proof.
  intros Ha. unfold round_pos. cbv zeta.
  apply Qmult_le_0_compat; [|apply Qlt_le_weak, pow2_pos].
  change 0 with (inject_Z 0). rewrite <- Zle_Qle.
  apply nearest_even_nonneg. apply Qle_shift_div_l; [apply pow2_pos|]. lra.
Qed.

Lemma round_pos_error (a : Q) :
  0 < a -> Qabs (round_pos a - a) <= u64 * a + eta64.
Proof.
  intros Ha. unfold round_pos. cbv zeta.
  set (e := ulp_exp a). pose proof (pow2_pos e) as He.
  pose proof (nearest_even_error (a / 2 ^ e)) as Hm.
  set (m := inject_Z (nearest_even (a / 2 ^ e))) in *.
  assert (Qabs (m * 2 ^ e - a) <= (1 # 2) * 2 ^ e) as Hhalf.
  { apply Qabs_Qle_condition in Hm as [Hm1 Hm2]. apply Qabs_Qle_condition.
    assert (a == a / 2 ^ e * 2 ^ e) as Hae by (field; lra).
    split.
    - apply (Qmult_le_compat_r _ _ (2 ^ e)) in Hm1; [|lra]. lra.
    - apply (Qmult_le_compat_r _ _ (2 ^ e)) in Hm2; [|lra]. lra. }
  assert ((1 # 2) * 2 ^ e <= u64 * a + eta64); [|lra].
  unfold e, ulp_exp.
  destruct (Z.max_spec (floor_log2 a - 52) (-1074)) as [[_ ->]|[_ ->]].
  - assert ((1 # 2) * 2 ^ (-1074) == eta64) as -> by reflexivity.
    assert (0 <= u64 * a); [|lra]. apply Qmult_le_0_compat; [discriminate | lra].
  - pose proof (floor_log2_lower a Ha) as Hl.
    replace (floor_log2 a - 52)%Z with (floor_log2 a + -52)%Z by lia.
    rewrite Qpower_plus by discriminate.
    assert ((1 # 2) * (2 ^ floor_log2 a * 2 ^ (-52)) == u64 * 2 ^ floor_log2 a) as ->.
    { assert ((1 # 2) * 2 ^ (-52) == u64) as <- by reflexivity. ring. }
    assert (u64 * 2 ^ floor_log2 a <= u64 * a).
    { apply Qmult_le_l; [reflexivity | exact Hl]. }
    assert (0 <= eta64) by discriminate. lra.
Qed.

#[export] Instance floor_log2_proper : Proper (Qeq ==> eq) floor_log2.
Proof.
  intros x y Hxy. unfold floor_log2. rewrite (Qred_complete x y Hxy).
  cbv zeta. by rewrite Hxy.
Qed.

#[export] Instance nearest_even_proper : Proper (Qeq ==> eq) nearest_even.
Proof.
  intros x y Hxy. unfold nearest_even. cbv zeta.
  assert (Qfloor x = Qfloor y) as -> by (by rewrite Hxy).
  by rewrite Hxy.
Qed.

#[export] Instance round_pos_proper : Proper (Qeq ==> Qeq) round_pos.
Proof.
  intros x y Hxy. unfold round_pos, ulp_exp. cbv zeta.
  by rewrite Hxy.
Qed.

#[export] Instance round64_proper : Proper (Qeq ==> Qeq) round64.
Proof.
  intros x y Hxy. unfold round64. rewrite Hxy.
  destruct (Qcompare y 0); [reflexivity| |]; by rewrite Hxy.
Qed.

Lemma round64_zero : round64 0 == 0.
Proof. reflexivity. Qed.

Lemma round64_nonneg (x : Q) : 0 <= x -> 0 <= round64 x.
Proof.
  intros Hx. unfold round64.
  destruct (Qcompare_spec x 0) as [He|Hl|Hg]; [lra | lra |].
  apply round_pos_nonneg. lra.
Qed.

Lemma round64_error (x : Q) : Qabs (round64 x - x) <= u64 * Qabs x + eta64.
Proof.
  unfold round64. destruct (Qcompare_spec x 0) as [He|Hl|Hg].
  - rewrite He. vm_compute. discriminate.
  - pose proof (round_pos_error (- x)) as H. 
    rewrite (Qabs_neg x) by lra.
    assert (- round_pos (- x) - x == - (round_pos (- x) - - x)) as -> by ring.
    rewrite Qabs_opp. apply H. lra.
  - rewrite (Qabs_pos x) by lra. by apply round_pos_error.
Qed.


(** Binary64 rounding as an instance. *)
Definition binary64 : Rounded.Rounding :=
  {| Rounded.rnd := round64;
     Rounded.rnd_proper := round64_proper;
     Rounded.rnd_zero := round64_zero;
     Rounded.rnd_nonneg := round64_nonneg;
     Rounded.rnd_error := round64_error |}.


Lemma u64_nonneg : 0 <= u64.
Proof. by vm_compute. Qed.

Lemma u64_small : u64 <= 12 # 100000000000000000.
Proof. by vm_compute. Qed.

Lemma eta64_nonneg : 0 <= eta64.
Proof. by vm_compute. Qed.

Lemma eta64_small : eta64 <= 1 # 1000000000000000000000000000000.
Proof. by vm_compute. Qed.

Lemma eta64_pmin64 : 10000000000 * eta64 <= pmin64.
Proof. by vm_compute. Qed.

Lemma pmin64_pos : 0 < pmin64.
Proof. by vm_compute. Qed.



(** * The normaliser on rounded arithmetic *)

Section RoundedFacts.
Context `{Rounded.Rounding}.

Lemma rounded_bounds (x : Q) :
  0 <= x →
  x - (u64 * x + eta64) <= Rounded.rnd x ∧ Rounded.rnd x <= x + (u64 * x + eta64).
Proof. apply (rnd_bounds Rounded.rnd u64 eta64 Rounded.rnd_error). Qed.

Lemma rounded_penalty :
  499 # 10000 <= Rounded.penalty ∧ Rounded.penalty <= 501 # 10000.
Proof.
  unfold Rounded.penalty.
  destruct (rounded_bounds 0.05) as [Hlo Hhi]; [lra|].
  pose proof u64_nonneg. pose proof u64_small.
  pose proof eta64_nonneg. pose proof eta64_small. lra.
Qed.

Lemma rounded_penalise_unfold detected d p :
  Rounded.penalise detected d p =
    if penalised detected d then Rounded.rnd (p * Rounded.penalty) else p.
Proof.
  unfold Rounded.penalise, penalised.
  destruct detected as [sp|]; [|done].
  destruct (disease_species !! d) as [ds|]; [|done].
  destruct (truthy sp), (truthy ds); simpl; try done.
  destruct (contains "_" ds); [by destruct (mem sp _)|].
  by destruct (String.eqb sp ds).
Qed.

Lemma rounded_penalise_range detected d p :
  0 <= p →
  0 <= Rounded.penalise detected d p ∧
  Rounded.penalty * (1 - u64) * p - eta64 <= Rounded.penalise detected d p ∧
  Rounded.penalise detected d p <= p + eta64.
Proof.
  intros Hp. rewrite rounded_penalise_unfold.
  pose proof rounded_penalty as [Hc1 Hc2].
  pose proof u64_nonneg as Hu0. pose proof u64_small as Hu.
  pose proof eta64_nonneg as He0.
  set (c := Rounded.penalty) in *.
  assert (0 <= p * c) as HA by (apply Qmult_le_0_compat; lra).
  assert (p * c <= p * (501 # 10000)) as HA' by (apply Qmult_le_nonneg_l; lra).
  assert (0 <= u64 * (p * c)) as HuA by (by apply Qmult_le_0_compat).
  assert (u64 * (p * c) <= (12 # 100000000000000000) * (p * c)) as HuA'.
  { by apply Qmult_le_compat_r. }
  destruct (penalised detected d).
  - destruct (rounded_bounds (p * c) HA) as [Hlo Hhi].
    split; [by apply Rounded.rnd_nonneg|]. split; lra.
  - split; [done|]. split; lra.
Qed.

Lemma rounded_penalised_total detected rows :
  nonneg_rows rows →
  Forall (λ x, 0 <= x) (map snd (Rounded.penalise_rows detected rows)) ∧
  Rounded.penalty * (1 - u64) * exact_sum (map snd rows)
    - Qn (length rows) * eta64
    <= exact_sum (map snd (Rounded.penalise_rows detected rows)) ∧
  exact_sum (map snd (Rounded.penalise_rows detected rows))
    <= exact_sum (map snd rows) + Qn (length rows) * eta64.
Proof.
  unfold Rounded.penalise_rows.
  induction 1 as [|[d p] rows Hp _ (IH1 & IH2 & IH3)].
  - simpl. change (Qn 0) with 0. split; [constructor|]. lra.
  - simpl in Hp.
    destruct (rounded_penalise_range detected d p Hp) as (Hx0 & Hx1 & Hx2).
    cbn [map list_fmap fmap length exact_sum foldr fst snd]. simpl.
    rewrite Qn_succ. unfold exact_sum in *. split; [by constructor|]. split; lra.
Qed.

Lemma rounded_penalised_total_with detected rows d0 p0 :
  nonneg_rows rows → (d0, p0) ∈ rows → penalised detected d0 = false →
  Rounded.penalty * (1 - u64) * exact_sum (map snd rows)
    + (1 - Rounded.penalty * (1 - u64)) * p0
    - Qn (length rows) * eta64
    <= exact_sum (map snd (Rounded.penalise_rows detected rows)).
Proof.
  intros Hall Hin Hfree.
  pose proof eta64_nonneg as He0.
  induction Hall as [|[d p] rows Hp Hall IH].
  - by apply elem_of_nil in Hin.
  - simpl in Hp.
    destruct (rounded_penalise_range detected d p Hp) as (Hx0 & Hx1 & Hx2).
    destruct (rounded_penalised_total detected rows Hall) as (_ & Hlo & _).
    unfold Rounded.penalise_rows in *. simpl. rewrite Qn_succ.
    unfold exact_sum in *.
    apply elem_of_cons in Hin as [[= <- <-]|Hin].
    + rewrite rounded_penalise_unfold, Hfree. lra.
    + specialize (IH Hin). lra.
Qed.

Lemma rounded_divisor_unfold (adjusted : list Row) :
  Rounded.divisor adjusted =
    let total := Rounded.py_sum (map snd adjusted) in
    if Qle_bool total 0 then (if Qeq_bool total 0 then 1 else total)
    else total.
Proof. unfold Rounded.divisor. by rewrite rebuild_id. Qed.

Lemma rounded_divisor_nonzero (adjusted : list Row) :
  ¬ Rounded.divisor adjusted == 0.
Proof.
  rewrite rounded_divisor_unfold. cbv zeta.
  destruct (Qle_bool _ 0) eqn:Hle.
  - destruct (Qeq_bool _ 0) eqn:Heq.
    + lra.
    + intros Hz. apply Qeq_bool_iff in Hz. congruence.
  - intros Hz. assert (Qle_bool (Rounded.py_sum (map snd adjusted)) 0 = true);
      [|congruence]. apply Qle_bool_iff. lra.
Qed.

Lemma rounded_divisor_positive (adjusted : list Row) :
  0 < Rounded.py_sum (map snd adjusted) →
  Rounded.divisor adjusted = Rounded.py_sum (map snd adjusted).
Proof.
  intros Hpos. rewrite rounded_divisor_unfold. cbv zeta.
  destruct (Qle_bool _ 0) eqn:Hle; [|done].
  apply Qle_bool_iff in Hle. lra.
Qed.



Lemma rounded_divide_rows_nonzero (adjusted : list Row) (total : Q) :
  ¬ total == 0 →
  Rounded.divide_rows adjusted total =
    inr (map (λ row : Row, (row.1, Rounded.rnd (row.2 / total))) adjusted).
Proof.
  intros Ht. induction adjusted as [|[d p] rest IH]; simpl; [done|].
  unfold Rounded.py_div. destruct (Qeq_bool total 0) eqn:Heq.
  - apply Qeq_bool_iff in Heq. contradiction.
  - by rewrite IH.
Qed.

(** On rounded arithmetic too the pass never raises. *)
Lemma rounded_species_adjust_total detected rows :
  Rounded.species_adjust detected rows =
    let adjusted := Rounded.penalise_rows detected rows in
    inr (map (λ row : Row,
                (row.1, Rounded.rnd (row.2 / Rounded.divisor adjusted)))
             adjusted).
Proof. apply rounded_divide_rows_nonzero, rounded_divisor_nonzero. Qed.

End RoundedFacts.

Section RoundedTotals.
Context `{Rounded.Rounding}.

Lemma sums_to_one_bounds rows :
  sums_to_one rows →
  1 - (1 # 1000000000) <= exact_sum (map snd rows) ∧ exact_sum (map snd rows) <= 1 + (1 # 1000000000).
Proof.
  unfold sums_to_one. intros Hs. apply Qabs_Qle_condition in Hs. lra.
Qed.

Lemma rounded_rate :
  497 # 10000 <= Rounded.penalty * (1 - u64) ∧
  Rounded.penalty * (1 - (12 # 100000000000000000))
    <= Rounded.penalty * (1 - u64) ∧
  Rounded.penalty * (1 - u64) <= Rounded.penalty.
Proof.
  pose proof rounded_penalty as [Hc1 Hc2].
  pose proof u64_nonneg as Hu0. pose proof u64_small as Hu.
  set (c := Rounded.penalty) in *.
  assert (c * u64 <= c * (12 # 100000000000000000)) by
    (apply Qmult_le_nonneg_l; lra).
  assert (0 <= c * u64) by (apply Qmult_le_0_compat; lra).
  lra.
Qed.

(** The penalised total of a raw distribution, as line 166 computes it. *)
Lemma rounded_total detected rows :
  nonneg_rows rows → (length rows ≤ 1000)%nat → sums_to_one rows →
  let pen := Rounded.penalise_rows detected rows in
  let T := Rounded.py_sum (map snd pen) in
  let k := Rounded.penalty * (1 - u64) in
  Forall (λ x, 0 <= x) (map snd pen) ∧
  39 # 1000 <= T ∧
  k * (1 - (1 # 1000000000)) - (1 # 1000000000000) <= T ∧
  (∀ d0 p0, (d0, p0) ∈ rows → penalised detected d0 = false →
     k * (1 - (1 # 1000000000)) + (1 - k) * p0 - (1 # 1000000000000) <= T) ∧
  Rounded.divisor pen = T ∧
  Qabs (exact_sum (map (λ x, Rounded.rnd (x / T)) (map snd pen)) - 1)
    <= (1 # 10000000000) ∧
  Qabs (Rounded.py_sum (map (λ x, Rounded.rnd (x / T)) (map snd pen)) - 1)
    <= (1 # 10000000000).
Proof.
  intros Hall Hlen Hone pen T k.
  destruct (sums_to_one_bounds rows Hone) as [Hs1 Hs2].
  destruct (rounded_penalised_total detected rows Hall) as (Hxs & Hlo & Hhi).
  fold pen in Hxs, Hlo, Hhi. fold k in Hlo.
  destruct rounded_rate as (Hk1 & _ & Hk3). fold k in Hk1, Hk3.
  pose proof rounded_penalty as [Hc1 Hc2].
  pose proof u64_nonneg as Hu0. pose proof u64_small as Hu.
  pose proof eta64_nonneg as He0. pose proof eta64_small as He.
  assert (Qn (length rows) * eta64 <= 1000 * eta64) as Hn.
  { apply Qmult_le_compat_r; [|done]. rewrite <- Qn_1000. by apply Qn_le. }
  assert (0 <= Qn (length rows) * eta64) as Hn0.
  { apply Qmult_le_0_compat; [apply Qn_nonneg | done]. }
  assert (k * (1 - (1 # 1000000000)) <= k * exact_sum (map snd rows)) as Hks.
  { apply Qmult_le_nonneg_l; lra. }
  set (σ := exact_sum (map snd pen)) in *.
  assert (4 # 100 <= σ) as Hσ1 by lra.
  assert (σ <= 2) as Hσ2 by lra.
  assert (length (map snd pen) ≤ 1000)%nat as Hlen'.
  { unfold pen, Rounded.penalise_rows. by rewrite !length_map. }
  destruct (renormalised_sum Rounded.rnd u64 eta64 Hu0 Hu He0 He
              Rounded.rnd_nonneg Rounded.rnd_error (map snd pen)
              Hxs Hlen' Hσ1 Hσ2) as (HT & HTσ & _ & Hq1 & Hq2).
  change (fsum Rounded.rnd (map snd pen)) with T in *.
  fold σ in HTσ. apply Qabs_Qle_condition in HTσ.
  assert (u64 * σ <= (12 # 100000000000000000) * σ) as Huσ.
  { apply Qmult_le_compat_r; lra. }
  assert (0 < T) as HT0 by lra.
  split; [done|]. split; [done|]. split; [lra|]. split; [|split; [|done]].
  - intros d0 p0 Hin Hfree.
    pose proof (rounded_penalised_total_with detected rows d0 p0 Hall Hin Hfree)
      as Hlo'.
    fold pen in Hlo'. fold k in Hlo'. fold σ in Hlo'. lra.
  - by apply rounded_divisor_positive.
Qed.

(** A float sum of exactly 1.0, and an exact sum of 1, are sums within the
    tolerance. *)
Lemma float_sum_one rows :
  nonneg_rows rows → (length rows ≤ 1000)%nat →
  Rounded.py_sum (map snd rows) == 1 → sums_to_one rows.
Proof.
  intros Hall Hlen Hone.
  pose proof u64_nonneg as Hu0. pose proof u64_small as Hu.
  pose proof eta64_nonneg as He0. pose proof eta64_small as He.
  assert (Forall (λ x, 0 <= x) (map snd rows)) as Hps.
  { unfold nonneg_rows in Hall. by rewrite Forall_fmap. }
  assert (length (map snd rows) ≤ 1000)%nat as Hlen' by (by rewrite length_map).
  pose proof (fsum_error Rounded.rnd u64 eta64 Hu0 Hu He0
                Rounded.rnd_nonneg Rounded.rnd_error _ Hps Hlen') as He'.
  change (fsum Rounded.rnd (map snd rows)) with (Rounded.py_sum (map snd rows))
    in He'.
  pose proof (exact_sum_nonneg _ Hps) as Hs0.
  unfold sums_to_one. set (s := exact_sum (map snd rows)) in *.
  rewrite Hone in He'. apply Qabs_Qle_condition in He'.
  assert (u64 * s <= (12 # 100000000000000000) * s) as Hus.
  { by apply Qmult_le_compat_r. }
  assert (0 <= u64 * s) by (by apply Qmult_le_0_compat).
  apply Qabs_Qle_condition. lra.
Qed.

Lemma rounded_quotient (p c x T t b : Q) :
  0 <= p → 0 <= c → 0 <= b → 0 <= x →
  39 # 1000 <= T → c * t <= T →
  x <= p * c * (1 + (1 # 1000000000000000)) + eta64 →
  1 + (1 # 1000000000000000) <= b * t →
  0 <= Rounded.rnd (x / T) ∧
  Rounded.rnd (x / T) <= (1 + (1 # 1000000000000000)) * (p * b + 30 * eta64) + eta64.
Proof.
  intros Hp Hc Hb Hx HT Hct Hxu Hbt.
  pose proof u64_nonneg as Hu0. pose proof u64_small as Hu.
  pose proof eta64_nonneg as He0.
  assert (0 < T) as HT0 by lra.
  assert (0 <= p * b) as Hpb by (by apply Qmult_le_0_compat).
  assert (0 <= p * c) as Hpc by (by apply Qmult_le_0_compat).
  assert (p * b * (c * t) <= p * b * T) as H1 by (by apply Qmult_le_nonneg_l).
  assert (30 * eta64 * (39 # 1000) <= 30 * eta64 * T) as H2.
  { apply Qmult_le_nonneg_l; lra. }
  assert (p * c * (1 + (1 # 1000000000000000)) <= p * c * (b * t)) as H3.
  { by apply Qmult_le_nonneg_l. }
  assert (x / T <= p * b + 30 * eta64) as Hy.
  { apply Qle_shift_div_r; [done|]. lra. }
  assert (0 <= x / T) as Hy0.
  { apply Qle_shift_div_l; [done|]. lra. }
  destruct (rounded_bounds (x / T) Hy0) as [_ Hhi].
  assert (u64 * (x / T) <= (1 # 1000000000000000) * (x / T)) as Huy.
  { apply Qmult_le_compat_r; [lra | done]. }
  split; [by apply Rounded.rnd_nonneg|]. lra.
Qed.

End RoundedTotals.

Section RoundedClaims.
Context `{Rounded.Rounding}.



Lemma rounded_adjusted_lookup detected rows i d p :
  rows !! i = Some (d, p) →
  ∃ adjusted,
    Rounded.species_adjust detected rows = inr adjusted ∧
    adjusted !! i =
      Some (d, Rounded.rnd (Rounded.penalise detected d p /
                            Rounded.divisor (Rounded.penalise_rows detected rows))).
Proof.
  intros Hi. rewrite rounded_species_adjust_total. cbv zeta.
  eexists. split; [done|].
  unfold Rounded.penalise_rows at 2. rewrite !list_lookup_fmap, Hi. done.
Qed.


End RoundedClaims.

(** * Claims about renormalisation *)

Section Renormalisation.

Lemma adjusted_lookup detected rows i d p :
  rows !! i = Some (d, p) →
  ∃ adjusted,
    species_adjust detected rows = inr adjusted ∧
    adjusted !! i =
      Some (d, penalise detected d p / divisor (penalise_rows detected rows)).
Proof.
  intros Hi. rewrite species_adjust_total. cbv zeta. eexists. split; [done|].
  unfold penalise_rows at 2. rewrite !list_lookup_fmap, Hi. done.
Qed.

End Renormalisation.

Section Degenerate.

Lemma divisor_pos (adjusted : list Row) :
  0 <= py_sum (map snd adjusted) → 0 < divisor adjusted.
Proof.
  intros Hs. rewrite divisor_unfold. cbv zeta.
  destruct (Qle_bool _ 0) eqn:Hle.
  - apply Qle_bool_iff in Hle.
    assert (Qeq_bool (py_sum (map snd adjusted)) 0 = true) as ->; [|lra].
    apply Qeq_bool_iff. lra.
  - destruct (Qlt_le_dec 0 (py_sum (map snd adjusted))) as [Hlt|Hge]; [done|].
    apply Qle_bool_iff in Hge. congruence.
Qed.

End Degenerate.

(** C1.  For every raw distribution (at most 1000 entries, none negative,
    summing to 1 within 1e-9, which covers an exact sum of 1 and a float
    sum of exactly 1.0, see [float_sum_one]) and any detected species or
    none, the penalise-and-renormalise pass on rounded arithmetic returns
    an adjusted distribution whose probabilities sum to 1 within 1e-9, as
    [sum] adds them with rounding and as exact numbers alike.  This holds
    for every rounding with the error model of binary64. *)
Theorem adjusted_sum_within_tolerance `{Rounded.Rounding}
    (detected : option string) (rows : list Row) :
  nonneg_rows rows → (length rows ≤ 1000)%nat → sums_to_one rows →
  ∃ adjusted,
    Rounded.species_adjust detected rows = inr adjusted ∧
    Qabs (Rounded.py_sum (map snd adjusted) - 1) <= 1 # 1000000000 ∧
    Qabs (exact_sum (map snd adjusted) - 1) <= 1 # 1000000000.
Proof.
  intros Hall Hlen Hone.
  destruct (rounded_total detected rows Hall Hlen Hone)
    as (_ & _ & _ & _ & Hdiv & Hq1 & Hq2).
  rewrite rounded_species_adjust_total. cbv zeta. rewrite Hdiv.
  eexists. split; [done|].
  rewrite !map_map in *. cbn [snd].
  apply Qabs_Qle_condition in Hq1, Hq2.
  split; apply Qabs_Qle_condition; lra.
Qed.

Lemma adjusted_sum_within_tolerance_witness :
  ∃ adjusted,
    @Rounded.species_adjust binary64 (Some "cow")
      [("Parvovirus", round64 0.6); ("Mastitis", round64 0.3);
       ("Arthritis", round64 0.1)] = inr adjusted ∧
    Qabs (@Rounded.py_sum binary64 (map snd adjusted) - 1) <= 1 # 1000000000 ∧
    Qabs (exact_sum (map snd adjusted) - 1) <= 1 # 1000000000.
Proof.
  apply (@adjusted_sum_within_tolerance binary64).
  - repeat constructor; by vm_compute.
  - simpl. lia.
  - by vm_compute.
Defined.




(** C5, as the code has it.  For a raw distribution (at most 1000 entries,
    none negative, summing to 1 within 1e-9) and a detected species [sp], a
    disease whose tag set excludes [sp] has an adjusted probability that
    exceeds its raw probability [p] by rounding at most: it is not above
    [p * (1 + 2e-9) + 2^-1070].  It is strictly below [p] when [p] is at
    least 2^-1022 (a normal binary64 number) and some disease that is not
    penalised has a raw probability of at least 1e-9. *)
Theorem penalised_within_rounding `{Rounded.Rounding} (sp : string)
    (rows : list Row) (i : nat) (d : string) (p : Q) :
  sp ≠ EmptyString → nonneg_rows rows → (length rows ≤ 1000)%nat →
  sums_to_one rows → rows !! i = Some (d, p) → excludes d sp →
  ∃ adjusted p',
    Rounded.species_adjust (Some sp) rows = inr adjusted ∧
    adjusted !! i = Some (d, p') ∧
    0 <= p' ∧
    p' <= p * (1 + (2 # 1000000000)) + 32 * eta64 ∧
    (pmin64 <= p →
     (∃ d' q, (d', q) ∈ rows ∧ (1 # 1000000000) <= q ∧ ¬ excludes d' sp) →
     p' < p).
Proof.
  intros Hsp Hall Hlen Hone Hi Hex.
  assert (truthy sp = true) as Htr by (by destruct sp).
  apply (penalised_excludes sp d Htr) in Hex.
  destruct (rounded_adjusted_lookup (Some sp) rows i d p Hi)
    as (adjusted & Hadj & Hl).
  destruct (rounded_total (Some sp) rows Hall Hlen Hone)
    as (_ & HT & HTk & HTfree & Hdiv & _ & _).
  rewrite Hdiv in Hl. rewrite rounded_penalise_unfold, Hex in Hl.
  set (T := Rounded.py_sum (map snd (Rounded.penalise_rows (Some sp) rows)))
    in *.
  exists adjusted. eexists. split; [exact Hadj|]. split; [exact Hl|].
  assert (0 <= p) as Hp.
  { unfold nonneg_rows in Hall. rewrite Forall_forall in Hall.
    apply (Hall (d, p)). by eapply list_elem_of_lookup_2. }
  pose proof rounded_penalty as [Hc1 Hc2].
  destruct rounded_rate as (Hk1 & Hk2 & Hk3).
  pose proof u64_nonneg as Hu0. pose proof u64_small as Hu.
  pose proof eta64_nonneg as He0. pose proof eta64_small as He.
  set (c := Rounded.penalty) in *. set (k := c * (1 - u64)) in *.
  assert (0 <= p * c) as HA by (apply Qmult_le_0_compat; lra).
  destruct (rounded_bounds (p * c) HA) as [_ Hx].
  assert (u64 * (p * c) <= (1 # 1000000000000000) * (p * c)) as HuA.
  { apply Qmult_le_compat_r; lra. }
  assert (0 <= Rounded.rnd (p * c)) as Hx0 by (by apply Rounded.rnd_nonneg).
  assert (Rounded.rnd (p * c)
            <= p * c * (1 + (1 # 1000000000000000)) + eta64) as Hxu by lra.
  split; [|split].
  - apply (rounded_quotient p c _ T (1 - (11 # 10000000000))
             (1 + (12 # 10000000000))); try done; lra.
  - destruct (rounded_quotient p c (Rounded.rnd (p * c)) T
                (1 - (11 # 10000000000)) (1 + (12 # 10000000000)))
      as [_ Hq]; try done; lra.
  - intros Hpmin (d' & q & Hin & Hq & Hfree).
    assert (penalised (Some sp) d' = false) as Hfree'.
    { destruct (penalised (Some sp) d') eqn:Hp'; [|done].
      by apply (penalised_excludes sp d' Htr) in Hp'. }
    clear Hfree. rename Hfree' into Hfree.
    pose proof (HTfree d' q Hin Hfree) as HT'. fold k in HT'.
    assert ((1 - k) * (1 # 1000000000) <= (1 - k) * q) as Hkq.
    { apply Qmult_le_nonneg_l; lra. }
    destruct (rounded_quotient p c (Rounded.rnd (p * c)) T
                (1 + (17 # 1000000000)) (1 - (16 # 1000000000)))
      as [_ Hq']; try done; try lra.
    pose proof eta64_pmin64. pose proof pmin64_pos. lra.
Qed.

Lemma penalised_within_rounding_witness :
  ∃ adjusted p',
    @Rounded.species_adjust binary64 (Some "cow")
      [("Parvovirus", round64 0.6); ("Mastitis", round64 0.3);
       ("Arthritis", round64 0.1)] = inr adjusted ∧
    adjusted !! 0%nat = Some ("Parvovirus", p') ∧
    p' < round64 0.6.
Proof.
  destruct (@penalised_within_rounding binary64 "cow"
              [("Parvovirus", round64 0.6); ("Mastitis", round64 0.3);
               ("Arthritis", round64 0.1)] 0%nat "Parvovirus" (round64 0.6))
    as (adjusted & p' & Hadj & Hl & _ & _ & Hlt).
  - discriminate.
  - repeat constructor; by vm_compute.
  - simpl. lia.
  - by vm_compute.
  - reflexivity.
  - exists "dog". split; [reflexivity|].
    intros Hin. apply mem_spec in Hin. discriminate.
  - exists adjusted, p'. split; [exact Hadj|]. split; [exact Hl|].
    apply Hlt; [by vm_compute|].
    exists "Mastitis", (round64 0.3). split; [|split].
    + apply elem_of_cons. right. apply elem_of_cons. by left.
    + by vm_compute.
    + intros (ds & Hds & Hn). vm_compute in Hds. injection Hds as <-.
      apply Hn. apply mem_spec. reflexivity.
Defined.

(** C5, counterexample on binary64: the floats 0.6, 0.4 and 0 (exact sum
    1) with "cow" detected.  Both positive rows are penalised, the penalty
    cancels in the renormalisation, and rounding lifts Distemper from 0.4
    to 0.4000000000000001, above its raw probability. *)
Lemma penalty_monotonicity_fails : ¬ @penalty_monotonicity binary64.
Proof.
  intros Hclaim.
  destruct (Hclaim "cow"
              [("Parvovirus", round64 0.6); ("Distemper", round64 0.4);
               ("Mastitis", 0)] 1%nat "Distemper" (round64 0.4))
    as (adjusted & p' & Hadj & Hl & Hle & _).
  - discriminate.
  - repeat constructor; by vm_compute.
  - by vm_compute.
  - reflexivity.
  - exists "dog". split; [reflexivity|].
    intros Hin. apply mem_spec in Hin. discriminate.
  - vm_compute in Hadj. injection Hadj as <-.
    vm_compute in Hl. injection Hl as <-.
    vm_compute in Hle. by apply Hle.
Qed.


(** * A concrete set of collaborators *)

(** A stand-in classifier with three answers, rows in the alphabetical
    order a label encoder gives its classes. *)
Definition sample_classifier (txt : string) : list Row :=
  if contains "udder" txt then
    [("Arthritis", 0.1); ("Mastitis", 0.3); ("Parvovirus", 0.6)]
  else if contains "fever" txt then
    [("Foot_and_Mouth", 0.17); ("Ketosis", 0.2); ("Mastitis", 0.03);
     ("Parvovirus", 0.6)]
  else
    map (λ kv : string * string, (kv.1, 1 # 15)) (map_to_list disease_species).

Definition sample_collaborators : Collaborators :=
  {| lower := ascii_lower;
     strip := ascii_strip;
     predict := sample_classifier;
     sort_values := sorted_desc;
     sort_values_perm := sorted_desc_perm;
     sort_values_desc := sorted_desc_sorted |}.

(** The diagnosis delivered for an input, [None] for any other outcome. *)
Definition delivered (o : Outcome) : option Diagnosis :=
  match o with
  | Delivered r => Some r
  | _ => None
  end.

(** Mastitis-like answer, cow detected: the scenario of a high band. *)
Definition sample_udder : option Diagnosis :=
  Eval vm_compute in delivered (@diagnose sample_collaborators "cow udder swollen").

(** Two rows tie after the penalty: Parvovirus 0.6 * 0.05 and Mastitis 0.03. *)
Definition sample_fever : option Diagnosis :=
  Eval vm_compute in delivered (@diagnose sample_collaborators "cow fever").

(** * Claims about the request handler *)

(** C6.  When the largest raw probability is strictly below 0.10 the
    handler ends in [InvalidSymptoms]; no diagnosis (detected species,
    adjusted distribution, ranked result, bands) is delivered. *)
Theorem validity_gate `{Collaborators} (user_input : string) (m : Q) :
  truthy (strip user_input) = true →
  max_prob (predict (lower user_input)) = Some m →
  m < 0.10 →
  diagnose user_input = InvalidSymptoms ∧
  ∀ r, diagnose user_input ≠ Delivered r.
Proof.
  intros Hin Hmax Hm.
  assert (diagnose user_input = InvalidSymptoms) as Hd.
  { unfold diagnose. rewrite Hin. cbn [negb].
    destruct (sorted_frame_head _ _ Hmax) as (d0 & prob0 & rest & -> & Hle).
    assert (Qlt_bool prob0 0.10 = true) as ->; [|done].
    unfold Qlt_bool. destruct (Qle_bool 0.10 prob0) eqn:Hb; [|done].
    apply Qle_bool_iff in Hb. lra. }
  split; [done|]. intros r. by rewrite Hd.
Qed.

Lemma validity_gate_witness :
  @diagnose sample_collaborators "hello" = InvalidSymptoms ∧
  ∀ r, @diagnose sample_collaborators "hello" ≠ Delivered r.
Proof.
  apply (@validity_gate sample_collaborators "hello" (1 # 15)).
  - reflexivity.
  - by vm_compute.
  - by vm_compute.
Defined.

(** C8.  In a delivered diagnosis the alert flag is set exactly when some
    entry of the ranked result has a confidence percentage of at least
    50, on the ranked entries and on the chart rows alike. *)
Theorem alert_iff_high `{Collaborators} (user_input : string) (r : Diagnosis) :
  diagnose user_input = Delivered r →
  (alert_triggered r = true ↔ ∃ entry, entry ∈ top3 r ∧ 50 <= entry.2 * 100) ∧
  (alert_triggered r = true ↔ ∃ row, row ∈ chart_rows r ∧ 50 <= Confidence row).
Proof.
  intros Hd. destruct (diagnose_delivered _ _ Hd) as (_ & _ & _ & _ & Hc & Ha).
  rewrite Ha, Hc, existsb_exists. unfold is_high. split; split.
  - intros (e & He & Hh). exists e. split; [by apply list_elem_of_In|].
    by apply Qle_bool_iff.
  - intros (e & He & Hh). exists e. split; [by apply list_elem_of_In|].
    by apply Qle_bool_iff.
  - intros (e & He & Hh). exists (chart_row_of e). split.
    + apply list_elem_of_fmap. exists e. split; [done|]. by apply list_elem_of_In.
    + rewrite chart_row_confidence. by apply Qle_bool_iff.
  - intros (row & Hrow & Hh).
    apply list_elem_of_fmap in Hrow as (e & -> & He).
    exists e. split; [by apply list_elem_of_In|].
    rewrite chart_row_confidence in Hh. by apply Qle_bool_iff.
Qed.

Lemma alert_iff_high_witness :
  ∃ r, sample_udder = Some r ∧
    alert_triggered r = true ∧
    ∃ entry, entry ∈ top3 r ∧ 50 <= entry.2 * 100.
Proof.
  destruct sample_udder as [r|] eqn:Hr; [|discriminate].
  exists r. split; [done|].
  assert (@diagnose sample_collaborators "cow udder swollen" = Delivered r) as Hd.
  { injection Hr as <-. by vm_compute. }
  destruct (@alert_iff_high sample_collaborators _ r Hd) as [[Hto _] _].
  assert (alert_triggered r = true) as Ha.
  { injection Hr as <-. reflexivity. }
  split; [exact Ha | exact (Hto Ha)].
Defined.

(** C4, as the code has it.  The ranked result is the first 3 rows of the
    adjusted list under a stable descending sort by probability: it is
    ordered, it rearranges the adjusted rows, and rows of equal adjusted
    probability keep the order of the adjusted list.  That list follows the
    frame sorted descending by raw probability (line 131), not the order of
    the classifier's classes. *)
Theorem ranked_result_order `{Collaborators} (user_input : string)
    (r : Diagnosis) :
  diagnose user_input = Delivered r →
  let all_df := sort_values (predict (lower user_input)) in
  top3 r = take 3 (sorted_desc (adjusted r)) ∧
  (length (top3 r) ≤ 3)%nat ∧
  Sorted desc (sorted_desc (adjusted r)) ∧
  sorted_desc (adjusted r) ≡ₚ adjusted r ∧
  (∀ q, with_prob q (sorted_desc (adjusted r)) = with_prob q (adjusted r)) ∧
  map fst (adjusted r) = map fst all_df ∧
  Sorted desc all_df ∧
  all_df ≡ₚ predict (lower user_input).
Proof.
  intros Hd all_df.
  destruct (diagnose_delivered _ _ Hd) as (_ & _ & Hadj & Htop & _).
  fold all_df in Hadj. rewrite Htop.
  split; [done|]. split; [apply rank_length|].
  split; [apply sorted_desc_sorted|]. split; [apply sorted_desc_perm|].
  split; [intros q; apply sorted_desc_stable|].
  split; [|split; [apply sort_values_desc | apply sort_values_perm]].
  rewrite species_adjust_total in Hadj. cbv zeta in Hadj.
  injection Hadj as <-. rewrite map_map. cbn [fst].
  rewrite <- (penalise_rows_names (species_detected r) all_df).
  by apply map_ext.
Qed.

Lemma ranked_result_order_witness :
  ∃ r, sample_fever = Some r ∧
    map fst (top3 r) = ["Ketosis"; "Foot_and_Mouth"; "Parvovirus"] ∧
    top3 r = take 3 (sorted_desc (adjusted r)) ∧
    ∀ q, with_prob q (sorted_desc (adjusted r)) = with_prob q (adjusted r).
Proof.
  destruct sample_fever as [r|] eqn:Hr; [|discriminate].
  exists r. split; [done|].
  assert (@diagnose sample_collaborators "cow fever" = Delivered r) as Hd.
  { injection Hr as <-. by vm_compute. }
  destruct (@ranked_result_order sample_collaborators _ r Hd)
    as (Htop & _ & _ & _ & Hstable & _).
  split; [|split; [exact Htop | exact Hstable]].
  injection Hr as <-. reflexivity.
Defined.

(** C4, counterexample to ties in catalogue order.  Classes in catalogue
    order Foot_and_Mouth 0.17, Ketosis 0.2, Mastitis 0.03, Parvovirus 0.6
    with "cow" detected: Mastitis and Parvovirus tie at 0.03 / 0.43.
    Catalogue order would rank Mastitis third; the code ranks Parvovirus
    third, because the frame was sorted by raw probability first. *)
Lemma ranked_in_catalogue_order_fails : ¬ ranked_in_catalogue_order.
Proof.
  intros Hclaim.
  destruct sample_fever as [r|] eqn:Hr; [|discriminate].
  assert (@diagnose sample_collaborators "cow fever" = Delivered r) as Hd.
  { injection Hr as <-. by vm_compute. }
  destruct (Hclaim sample_collaborators "cow fever" r Hd)
    as (adjusted_cat & Hadj & Hsame).
  injection Hr as <-. vm_compute in Hadj. injection Hadj as <-.
  vm_compute in Hsame.
  apply Forall2_cons_1 in Hsame as [_ Hsame].
  apply Forall2_cons_1 in Hsame as [_ Hsame].
  apply Forall2_cons_1 in Hsame as [[Hname _] _].
  discriminate Hname.
Qed.

Lemma tag_lookup_verbatim_witness :
  disease_species !! "parvovirus" = None ∧
  penalise (Some "cow") "parvovirus" 0.6 = 0.6 ∧
  penalise (Some "cow") "Parvovirus" 0.6 = 0.6 * 0.05 ∧
  @siname sample_collaborators " Parvovirus " = "පාර්වෝ වෛරස් රෝගය (බල්ලා)" ∧
  @siname sample_collaborators "Rabies" = si_missing.
Proof.
  destruct (@tag_lookup_verbatim sample_collaborators "parvovirus")
    as (Hout & Hcase & _).
  assert ("parvovirus" ∉ dom disease_species) as Hnot.
  { apply (Hcase "Parvovirus"); [|discriminate | reflexivity].
    apply elem_of_dom. by exists "dog". }
  destruct (Hout Hnot) as [Hnone Hpen].
  split; [exact Hnone|]. split; [apply Hpen|]. split; [reflexivity|].
  split.
  - destruct (@tag_lookup_verbatim sample_collaborators " Parvovirus ")
      as (_ & _ & ->). by vm_compute.
  - destruct (@tag_lookup_verbatim sample_collaborators "Rabies")
      as (_ & _ & ->). by vm_compute.
Defined.

(** * The concrete frames on binary64 floats

    The frames of the counterexamples above, run with the rounding of the
    hardware, and compared with the rounded rationals of [Rounded]. *)

(** The probabilities a run on floats returns, as rationals. *)
Definition float_values (r : PyError + list Binary64.FRow) : list (option Q) :=
  match r with
  | inr l => map (λ row : Binary64.FRow, option_map Qred (to_Q row.2)) l
  | inl _ => []
  end.

(** The probabilities a run on rounded rationals returns. *)
Definition rounded_values (r : PyError + list Row) : list (option Q) :=
  match r with
  | inr l => map (λ row : Row, Some (Qred row.2)) l
  | inl _ => []
  end.

(** A frame of floats as a frame of rationals. *)
Definition of_floats (l : list Binary64.FRow) : list Row :=
  map (λ row : Binary64.FRow, (row.1, default 0 (to_Q row.2))) l.

(** The all-zero frame comes back as zeros. *)
Example binary64_all_zero :
  Binary64.species_adjust (Some "cow")
    [("Parvovirus", 0%float); ("Mastitis", 0%float)]
  = inr [("Parvovirus", 0%float); ("Mastitis", 0%float)].
Proof. reflexivity. Qed.

(** A lone penalised row is restored exactly: 0.05 / 0.05 = 1. *)
Example binary64_penalty_cancels :
  Binary64.species_adjust (Some "cow")
    [("Parvovirus", 1%float); ("Mastitis", 0%float)]
  = inr [("Parvovirus", 1%float); ("Mastitis", 0%float)].
Proof. reflexivity. Qed.

(** The tie of Parvovirus and Mastitis is exact, and the order of the frame
    decides between them. *)
Example binary64_tie_frame_order :
  Binary64.top3_names (Some "cow")
    [("Parvovirus", 0.6%float); ("Ketosis", 0.2%float);
     ("Foot_and_Mouth", 0.17%float); ("Mastitis", 0.03%float)]
  = inr ["Ketosis"; "Foot_and_Mouth"; "Parvovirus"].
Proof. reflexivity. Qed.

Example binary64_tie_catalogue_order :
  Binary64.top3_names (Some "cow")
    [("Foot_and_Mouth", 0.17%float); ("Ketosis", 0.2%float);
     ("Mastitis", 0.03%float); ("Parvovirus", 0.6%float)]
  = inr ["Ketosis"; "Foot_and_Mouth"; "Mastitis"].
Proof. reflexivity. Qed.

(** The scenario Parvovirus 0.6, Mastitis 0.3, Arthritis 0.1 with "cow":
    the adjusted probabilities sum to 1 within 1e-9. *)
Example binary64_scenario_sum :
  match Binary64.species_adjust (Some "cow")
          [("Parvovirus", 0.6%float); ("Mastitis", 0.3%float);
           ("Arthritis", 0.1%float)] with
  | inr adjusted =>
      PrimFloat.leb
        (PrimFloat.abs
           (PrimFloat.sub (Binary64.py_sum (map snd adjusted)) 1%float))
        1e-9%float
  | inl _ => false
  end = true.
Proof. reflexivity. Qed.

(** Rounding can lift a penalised row one unit in the last place above its
    raw value: Distemper 0.4 with "cow" detected and no unpenalised mass. *)
Example binary64_rounding :
  match Binary64.species_adjust (Some "cow")
          [("Parvovirus", 0.6%float); ("Distemper", 0.4%float);
           ("Mastitis", 0%float)] with
  | inr [(_, p0); (_, p1); _] =>
      PrimFloat.eqb p0 0.6%float && PrimFloat.ltb 0.4%float p1 &&
      PrimFloat.leb p1 0.4000000000000001%float
  | _ => false
  end = true.
Proof. reflexivity. Qed.

(** [round64] reads the decimal literals as the interpreter does. *)
Example round64_literals :
  same_rows
    (of_floats [("Parvovirus", 0.6%float); ("Distemper", 0.4%float);
                ("Mastitis", 0.3%float); ("Arthritis", 0.1%float)])
    [("Parvovirus", round64 0.6); ("Distemper", round64 0.4);
     ("Mastitis", round64 0.3); ("Arthritis", round64 0.1)].
Proof. vm_compute. repeat constructor. Qed.

(** On the scenario frame the rounded rationals and the floats agree digit
    for digit. *)
Example rounded_agrees_scenario :
  let frame := [("Parvovirus", 0.6%float); ("Mastitis", 0.3%float);
                ("Arthritis", 0.1%float)] in
  float_values (Binary64.species_adjust (Some "cow") frame)
  = rounded_values (@Rounded.species_adjust binary64 (Some "cow")
                      (of_floats frame)).
Proof. vm_compute. reflexivity. Qed.

(** So they do on the frame where rounding lifts Distemper. *)
Example rounded_agrees_rounding :
  let frame := [("Parvovirus", 0.6%float); ("Distemper", 0.4%float);
                ("Mastitis", 0%float)] in
  float_values (Binary64.species_adjust (Some "cow") frame)
  = rounded_values (@Rounded.species_adjust binary64 (Some "cow")
                      (of_floats frame)).
Proof. vm_compute. reflexivity. Qed.

(** The smallest positive float, 2^-1074 (5e-324), under the penalty: the
    product underflows to zero, the penalised total is zero, and the pass
    returns zeros, on floats and on rounded rationals alike.  The fallback
    as specified would return the raw values renormalised, 1 and 0. *)
Example binary64_underflow :
  let frame := [("Parvovirus", 0x1p-1074%float); ("Mastitis", 0%float)] in
  Binary64.species_adjust (Some "cow") frame
    = inr [("Parvovirus", 0%float); ("Mastitis", 0%float)] ∧
  rounded_values (@Rounded.species_adjust binary64 (Some "cow")
                    (of_floats frame)) = [Some 0; Some 0] ∧
  same_rows (@spec_normalise binary64 (Some "cow") (of_floats frame))
    [("Parvovirus", 1); ("Mastitis", 0)].
Proof.
  split; [reflexivity|]. split; [vm_compute; reflexivity|].
  vm_compute. repeat constructor.
Qed.

(** * Further properties of the normaliser (lines 148-171) *)

Section NormaliserFacts.

Lemma elem_le_py_sum (l : list Q) (x : Q) :
  Forall (λ p, 0 <= p) l → x ∈ l → x <= py_sum l.
Proof.
  induction 1 as [|y l Hy Hl IH]; intros Hin.
  - by apply elem_of_nil in Hin.
  - rewrite py_sum_cons. pose proof (py_sum_nonneg l Hl).
    apply elem_of_cons in Hin as [->|Hin]; [lra|].
    specialize (IH Hin). lra.
Qed.

Lemma not_excludes_unpenalised sp d :
  ¬ excludes d sp → penalised (Some sp) d = false.
Proof.
  intros Hn. destruct (truthy sp) eqn:Hsp.
  - destruct (penalised (Some sp) d) eqn:Hp; [|done].
    by apply (penalised_excludes sp d Hsp) in Hp.
  - unfold penalised. rewrite Hsp. by destruct (disease_species !! d).
Qed.

Lemma unpenalised_rows detected rows :
  (∀ sp, detected = Some sp → Forall (λ row : Row, ¬ excludes row.1 sp) rows) →
  penalise_rows detected rows = rows.
Proof.
  intros Hall. unfold penalise_rows.
  induction rows as [|[d p] rows IH]; simpl; [done|].
  rewrite IH.
  - f_equal. f_equal. simpl. rewrite penalise_unfold.
    destruct detected as [sp|]; [|done].
    specialize (Hall sp eq_refl). apply Forall_cons in Hall as [Hd _].
    simpl in Hd. by rewrite (not_excludes_unpenalised _ _ Hd).
  - intros sp Hsp. specialize (Hall sp Hsp). by apply Forall_cons in Hall as [_ ?].
Qed.

Lemma Qdiv_le_mono (a b t : Q) : 0 < t → a <= b → a / t <= b / t.
Proof.
  intros Ht Hab. apply Qle_shift_div_l; [done|].
  assert (a / t * t == a) as Ha by (field; lra). by rewrite Ha.
Qed.

End NormaliserFacts.

(** X4.  On a frame without negative probability every adjusted
    probability lies between 0 and 1, whatever the frame sums to. *)
Theorem adjusted_in_unit_interval (detected : option string) (rows : list Row) :
  nonneg_rows rows →
  ∃ adjusted,
    species_adjust detected rows = inr adjusted ∧
    Forall (λ row : Row, 0 <= row.2 ∧ row.2 <= 1) adjusted.
Proof.
  intros Hall. rewrite species_adjust_total. cbv zeta. eexists. split; [done|].
  set (pen := penalise_rows detected rows).
  pose proof (penalise_rows_nonneg detected rows Hall) as Hpen. fold pen in Hpen.
  pose proof (py_sum_nonneg _ Hpen) as Hsum.
  pose proof (divisor_pos pen Hsum) as Hd.
  apply Forall_forall. intros [d q] Hin.
  apply list_elem_of_fmap in Hin as ([d' q'] & [= -> ->] & Hin). simpl.
  assert (q' ∈ map snd pen) as Hq'.
  { apply list_elem_of_fmap. by exists (d', q'). }
  assert (0 <= q') as Hq0 by (rewrite Forall_forall in Hpen; by apply Hpen).
  pose proof (elem_le_py_sum _ _ Hpen Hq') as Hle.
  split.
  - apply Qle_shift_div_l; [done|]. lra.
  - apply Qle_shift_div_r; [done|].
    destruct (Qlt_le_dec 0 (py_sum (map snd pen))) as [Hpos|Hzero].
    + rewrite (divisor_positive _ Hpos). lra.
    + assert (py_sum (map snd pen) == 0) as Hz by lra.
      rewrite (divisor_zero _ Hz). lra.
Qed.

Lemma adjusted_in_unit_interval_witness :
  ∃ adjusted,
    species_adjust (Some "dog") [("Mastitis", 7); ("Distemper", 2)]
      = inr adjusted ∧
    Forall (λ row : Row, 0 <= row.2 ∧ row.2 <= 1) adjusted.
Proof.
  apply (adjusted_in_unit_interval (Some "dog")
           [("Mastitis", 7); ("Distemper", 2)]).
  repeat constructor; by vm_compute.
Defined.

Lemma penalised_detected detected d :
  penalised detected d = true →
  ∃ sp, detected = Some sp ∧ truthy sp = true.
Proof.
  unfold penalised. destruct detected as [sp|]; [|done].
  destruct (disease_species !! d); [|done].
  destruct (truthy sp) eqn:Hsp; [|done]. intros _. exists sp. by split.
Qed.

(** X5.  The pass keeps the order of two rows unless it penalises only the
    leading one: on a frame without negative probability, when row [i] has
    at least the raw probability of row [j] and [j] is penalised whenever
    [i] is, row [i] has at least the adjusted probability of row [j]. *)
Theorem order_preserved (detected : option string) (rows : list Row)
    (i j : nat) (di dj : string) (pi pj : Q) :
  nonneg_rows rows →
  rows !! i = Some (di, pi) → rows !! j = Some (dj, pj) → pj <= pi →
  (∀ sp, detected = Some sp → excludes di sp → excludes dj sp) →
  ∃ adjusted pi' pj',
    species_adjust detected rows = inr adjusted ∧
    adjusted !! i = Some (di, pi') ∧
    adjusted !! j = Some (dj, pj') ∧
    pj' <= pi'.
Proof.
  intros Hall Hi Hj Hle Hex.
  destruct (adjusted_lookup detected rows i di pi Hi) as (adjusted & Hadj & Hli).
  destruct (adjusted_lookup detected rows j dj pj Hj) as (adjusted' & Hadj' & Hlj).
  rewrite Hadj in Hadj'. injection Hadj' as <-.
  eexists adjusted, _, _. split; [done|]. split; [exact Hli|].
  split; [exact Hlj|].
  pose proof (penalise_rows_nonneg detected rows Hall) as Hpen.
  pose proof (divisor_pos _ (py_sum_nonneg _ Hpen)) as Hd.
  apply Qdiv_le_mono; [done|].
  assert (0 <= pj) as Hpj.
  { unfold nonneg_rows in Hall. rewrite Forall_forall in Hall.
    apply (Hall (dj, pj)). by eapply list_elem_of_lookup_2. }
  rewrite !penalise_unfold.
  destruct (penalised detected di) eqn:Hpi.
  - destruct (penalised_detected _ _ Hpi) as (sp & -> & Hsp).
    apply (penalised_excludes sp di Hsp) in Hpi.
    pose proof (Hex sp eq_refl Hpi) as Hpj'.
    apply (penalised_excludes sp dj Hsp) in Hpj'. rewrite Hpj'.
    unfold penalty. lra.
  - destruct (penalised detected dj); unfold penalty; lra.
Qed.

Lemma order_preserved_witness :
  ∃ adjusted pi' pj',
    species_adjust (Some "cow")
      [("Parvovirus", 0.6); ("Mastitis", 0.3); ("Arthritis", 0.1)]
      = inr adjusted ∧
    adjusted !! 1%nat = Some ("Mastitis", pi') ∧
    adjusted !! 2%nat = Some ("Arthritis", pj') ∧
    pj' <= pi'.
Proof.
  apply (order_preserved (Some "cow")
           [("Parvovirus", 0.6); ("Mastitis", 0.3); ("Arthritis", 0.1)]
           1 2 "Mastitis" "Arthritis" 0.3 0.1).
  - repeat constructor; by vm_compute.
  - reflexivity.
  - reflexivity.
  - by vm_compute.
  - intros sp [= <-] (ds & Hds & Hn). vm_compute in Hds. injection Hds as <-.
    exfalso. apply Hn, mem_spec. reflexivity.
Defined.

(** ** Rows that are not penalised, on rounded arithmetic *)

Section UnpenalisedFacts.
Context `{Rounded.Rounding}.

(** The penalised total of a raw distribution is close to 1 from above,
    and from below as well when nothing is penalised. *)
Lemma rounded_total_range detected rows :
  nonneg_rows rows → (length rows ≤ 1000)%nat → sums_to_one rows →
  let T := Rounded.py_sum (map snd (Rounded.penalise_rows detected rows)) in
  T <= 1 + (11 # 10000000000) ∧
  (detected = None → 1 - (11 # 10000000000) <= T).
Proof.
  intros Hall Hlen Hone T.
  destruct (sums_to_one_bounds rows Hone) as [Hs1 Hs2].
  destruct (rounded_penalised_total detected rows Hall) as (Hxs & Hlo & Hhi).
  destruct (@rounded_rate H) as (Hk1 & _ & Hk3).
  pose proof u64_nonneg as Hu0. pose proof u64_small as Hu.
  pose proof eta64_nonneg as He0. pose proof eta64_small as He.
  assert (Qn (length rows) * eta64 <= 1000 * eta64) as Hn.
  { apply Qmult_le_compat_r; [|done]. rewrite <- Qn_1000. by apply Qn_le. }
  assert (0 <= Qn (length rows) * eta64) as Hn0.
  { apply Qmult_le_0_compat; [apply Qn_nonneg | done]. }
  set (k := Rounded.penalty * (1 - u64)) in *.
  assert (k * (1 - (1 # 1000000000)) <= k * exact_sum (map snd rows)) as Hks.
  { apply Qmult_le_nonneg_l; lra. }
  set (pen := Rounded.penalise_rows detected rows) in *.
  assert (length (map snd pen) ≤ 1000)%nat as Hlen'.
  { unfold pen, Rounded.penalise_rows. by rewrite !length_map. }
  assert (4 # 100 <= exact_sum (map snd pen)) as Hσ1 by lra.
  assert (exact_sum (map snd pen) <= 2) as Hσ2 by lra.
  destruct (renormalised_sum Rounded.rnd u64 eta64 Hu0 Hu He0 He
              Rounded.rnd_nonneg Rounded.rnd_error (map snd pen)
              Hxs Hlen' Hσ1 Hσ2) as (_ & HTσ & _).
  change (fsum Rounded.rnd (map snd pen)) with T in HTσ.
  apply Qabs_Qle_condition in HTσ.
  assert (u64 * exact_sum (map snd pen)
            <= (12 # 100000000000000000) * exact_sum (map snd pen)) as Huσ.
  { apply Qmult_le_compat_r; lra. }
  assert (0 <= u64 * exact_sum (map snd pen)) as Huσ0.
  { apply Qmult_le_0_compat; lra. }
  split; [lra|].
  intros ->.
  assert (map snd pen = map snd rows) as Hsame.
  { unfold pen, Rounded.penalise_rows. rewrite map_map. apply map_ext.
    by intros [d p]. }
  rewrite Hsame in *. lra.
Qed.

End UnpenalisedFacts.

(** X21.  In a raw distribution (at most 1000 entries, none negative,
    summing to 1 within 1e-9) a row that is not penalised loses rounding at
    most: its adjusted probability is not below [p * (1 - 2e-9) - 2^-1075].
    When no species is detected it is not above [p * (1 + 2e-9) + 2^-1075]
    either, so the pass leaves the distribution as it is up to rounding. *)
Theorem unpenalised_within_rounding `{Rounded.Rounding}
    (detected : option string) (rows : list Row) (i : nat) (d : string)
    (p : Q) :
  nonneg_rows rows → (length rows ≤ 1000)%nat → sums_to_one rows →
  rows !! i = Some (d, p) → penalised detected d = false →
  ∃ adjusted p',
    Rounded.species_adjust detected rows = inr adjusted ∧
    adjusted !! i = Some (d, p') ∧
    p * (1 - (2 # 1000000000)) - eta64 <= p' ∧
    (detected = None → p' <= p * (1 + (2 # 1000000000)) + eta64).
Proof.
  intros Hall Hlen Hone Hi Hfree.
  destruct (rounded_adjusted_lookup detected rows i d p Hi)
    as (adjusted & Hadj & Hl).
  destruct (rounded_total detected rows Hall Hlen Hone)
    as (_ & HT & _ & _ & Hdiv & _ & _).
  destruct (rounded_total_range detected rows Hall Hlen Hone) as [HT1 HT2].
  rewrite Hdiv in Hl. rewrite rounded_penalise_unfold, Hfree in Hl.
  set (T := Rounded.py_sum (map snd (Rounded.penalise_rows detected rows)))
    in *.
  exists adjusted. eexists. split; [exact Hadj|]. split; [exact Hl|].
  assert (0 <= p) as Hp.
  { unfold nonneg_rows in Hall. rewrite Forall_forall in Hall.
    apply (Hall (d, p)). by eapply list_elem_of_lookup_2. }
  pose proof u64_nonneg as Hu0. pose proof u64_small as Hu.
  pose proof eta64_nonneg as He0.
  assert (0 < T) as HT0 by lra.
  assert (0 <= p / T) as Hy0 by (apply Qle_shift_div_l; [done | lra]).
  destruct (rounded_bounds (p / T) Hy0) as [Hlo Hhi].
  assert (u64 * (p / T) <= (12 # 100000000000000000) * (p / T)) as Huy.
  { by apply Qmult_le_compat_r. }
  assert (0 <= u64 * (p / T)) as Huy0 by (by apply Qmult_le_0_compat).
  split.
  - assert (p * (1 - (11 # 10000000000)) <= p / T) as Hy.
    { apply Qle_shift_div_l; [done|].
      assert (p * (1 - (11 # 10000000000)) * T
                <= p * (1 - (11 # 10000000000)) * (1 + (11 # 10000000000))).
      { apply Qmult_le_nonneg_l; [|done].
        apply Qmult_le_0_compat; lra. }
      lra. }
    lra.
  - intros Hnone. specialize (HT2 Hnone).
    assert (p / T <= p * (1 + (12 # 10000000000))) as Hy.
    { apply Qle_shift_div_r; [done|].
      assert (p * (1 + (12 # 10000000000)) * (1 - (11 # 10000000000))
                <= p * (1 + (12 # 10000000000)) * T).
      { apply Qmult_le_nonneg_l; [|done].
        apply Qmult_le_0_compat; lra. }
      lra. }
    lra.
Qed.

Lemma unpenalised_within_rounding_witness :
  ∃ adjusted p',
    @Rounded.species_adjust binary64 (Some "cow")
      [("Parvovirus", round64 0.6); ("Mastitis", round64 0.3);
       ("Arthritis", round64 0.1)] = inr adjusted ∧
    adjusted !! 1%nat = Some ("Mastitis", p') ∧
    round64 0.3 * (1 - (2 # 1000000000)) - eta64 <= p'.
Proof.
  destruct (@unpenalised_within_rounding binary64 (Some "cow")
              [("Parvovirus", round64 0.6); ("Mastitis", round64 0.3);
               ("Arthritis", round64 0.1)] 1%nat "Mastitis" (round64 0.3))
    as (adjusted & p' & Hadj & Hl & Hlo & _).
  - repeat constructor; by vm_compute.
  - simpl. lia.
  - by vm_compute.
  - reflexivity.
  - reflexivity.
  - exists adjusted, p'. split; [exact Hadj|]. split; [exact Hl|]. exact Hlo.
Defined.

(** * Further properties of the ranker (lines 174-175) *)

Section RankerFacts.

#[local] Instance desc_transitive : Transitive desc.
Proof. intros a b c Hab Hbc. unfold desc in *. lra. Qed.

Lemma insert_desc_head x l : HdRel desc x l → insert_desc x l = x :: l.
Proof.
  destruct 1 as [|y l Hxy]; simpl; [done|].
  unfold desc in Hxy. apply Qle_bool_iff in Hxy. by rewrite Hxy.
Qed.

Lemma sorted_desc_fixed l : Sorted desc l → sorted_desc l = l.
Proof.
  induction 1 as [|x l Hl IH Hx]; [done|].
  unfold sorted_desc in *. simpl. rewrite IH. by apply insert_desc_head.
Qed.

Lemma sorted_desc_strongly l : StronglySorted desc (sorted_desc l).
Proof. apply Sorted_StronglySorted; [apply _ | apply sorted_desc_sorted]. Qed.

(** In a sorted list every row of the front is at least every row of the
    back. *)
Lemma strongly_sorted_split (l : list Row) (n : nat) (e e' : Row) :
  StronglySorted desc l → e ∈ take n l → e' ∈ drop n l → e'.2 <= e.2.
Proof.
  intros Hs He He'. rewrite <- (take_drop n l) in Hs.
  by apply (StronglySorted_app_1_elem_of desc _ _ e e' Hs).
Qed.

Lemma sorted_scaled (l : list Row) (t : Q) :
  0 < t → Sorted desc l →
  Sorted desc (map (λ row : Row, (row.1, row.2 / t)) l).
Proof.
  intros Ht. induction 1 as [|x l Hl IH Hx]; simpl; constructor; [done|].
  destruct Hx as [|y l Hxy]; simpl; constructor.
  unfold desc in *. simpl. by apply Qdiv_le_mono.
Qed.

End RankerFacts.

(** X7.  Sorting leaves a list that is already in descending order of
    probability unchanged, so sorting twice is sorting once. *)
Theorem sorted_desc_idempotent (l : list Row) :
  (Sorted desc l → sorted_desc l = l) ∧
  sorted_desc (sorted_desc l) = sorted_desc l.
Proof.
  split; [apply sorted_desc_fixed|].
  apply sorted_desc_fixed, sorted_desc_sorted.
Qed.

Lemma sorted_desc_idempotent_witness :
  sorted_desc [("Ketosis", 0.5); ("Mastitis", 0.5); ("Arthritis", 0.2)]
  = [("Ketosis", 0.5); ("Mastitis", 0.5); ("Arthritis", 0.2)].
Proof.
  apply (proj1 (sorted_desc_idempotent
                  [("Ketosis", 0.5); ("Mastitis", 0.5); ("Arthritis", 0.2)])).
  repeat constructor; by vm_compute.
Defined.

(** X8.  The ranked result has min(3, n) entries for n adjusted rows; with
    the rows left out it rearranges the adjusted list, and no row left out
    has a higher probability than a ranked one. *)
Theorem rank_dominates (adjusted : list Row) :
  length (rank adjusted) = (3 `min` length adjusted)%nat ∧
  ∃ rest,
    rank adjusted ++ rest ≡ₚ adjusted ∧
    ∀ e e', e ∈ rank adjusted → e' ∈ rest → e'.2 <= e.2.
Proof.
  unfold rank, top_n. split.
  - by rewrite length_take, (Permutation_length (sorted_desc_perm adjusted)).
  - exists (drop 3 (sorted_desc adjusted)). split.
    + rewrite take_drop. apply sorted_desc_perm.
    + intros e e'. apply strongly_sorted_split, sorted_desc_strongly.
Qed.

(** * Further properties of the request handler (lines 115-214) *)

Section GateFacts.
Context `{Collaborators}.

Lemma max_prob_attained (rows : list Row) (m : Q) :
  max_prob rows = Some m → ∃ d, (d, m) ∈ rows.
Proof.
  revert m. induction rows as [|[d p] rows IH]; intros m; simpl; [done|].
  destruct (max_prob rows) as [m'|].
  - intros [= <-]. destruct (Qle_bool m' p).
    + exists d. by left.
    + destruct (IH m' eq_refl) as [d' Hd']. exists d'. by right.
  - intros [= <-]. exists d. by left.
Qed.

Lemma max_prob_nonempty (rows : list Row) :
  rows ≠ [] → ∃ m, max_prob rows = Some m.
Proof.
  destruct rows as [|[d p] rows]; [done|]. intros _. simpl.
  destruct (max_prob rows); eauto.
Qed.

(** The first row of the sorted frame is at least every row of the frame. *)
Lemma sorted_frame_head_max (rows : list Row) d0 prob0 rest (e : Row) :
  sort_values rows = (d0, prob0) :: rest → e ∈ rows → e.2 <= prob0.
Proof.
  intros Hs He. pose proof (sort_values_desc rows) as Hsorted.
  apply (@Sorted_StronglySorted _ desc desc_transitive) in Hsorted.
  rewrite <- (sort_values_perm rows), Hs in He.
  rewrite Hs in Hsorted. apply StronglySorted_inv in Hsorted as [_ Hall].
  apply elem_of_cons in He as [->|He]; [apply Qle_refl|].
  rewrite Forall_forall in Hall. by apply Hall.
Qed.

Lemma sort_values_nil : sort_values [] = [].
Proof. apply Permutation_nil_r, sort_values_perm. Qed.

Lemma sort_values_nonempty rows : rows ≠ [] → sort_values rows ≠ [].
Proof.
  intros Hne Hs. apply Hne. pose proof (sort_values_perm rows) as Hp.
  rewrite Hs in Hp. by apply Permutation_nil_l in Hp.
Qed.

End GateFacts.

(** X9.  A request is delivered exactly when its input is not blank and
    the largest raw probability is at least 0.10: the validity gate lets
    every such frame through and the rest of the handler cannot fail. *)
Theorem delivered_iff `{Collaborators} (user_input : string) :
  (∃ r, diagnose user_input = Delivered r) ↔
  truthy (strip user_input) = true ∧
  ∃ m, max_prob (predict (lower user_input)) = Some m ∧ 0.10 <= m.
Proof.
  unfold diagnose. destruct (truthy (strip user_input)); cbn [negb].
  2: { split; [by intros [r ?] | by intros [? _]]. }
  set (rows := predict (lower user_input)).
  destruct (sort_values rows) as [|[d0 prob0] rest] eqn:Hs.
  - split; [by intros [r ?]|]. intros [_ (m & Hm & _)].
    destruct (max_prob_attained _ _ Hm) as [d Hd].
    assert (rows ≠ []) as Hne by (intros Hr; rewrite Hr in Hd; by apply elem_of_nil in Hd).
    by destruct (sort_values_nonempty rows Hne).
  - assert ((d0, prob0) ∈ rows) as Hin.
    { rewrite <- (sort_values_perm rows), Hs. by left. }
    unfold Qlt_bool. destruct (Qle_bool 0.10 prob0) eqn:Hb; cbn [negb].
    + apply Qle_bool_iff in Hb. split.
      * intros _. split; [done|].
        destruct (max_prob_nonempty rows) as [m Hm].
        { intros Hr. rewrite Hr in Hin. by apply elem_of_nil in Hin. }
        exists m. split; [done|].
        apply max_prob_bound in Hm. rewrite Forall_forall in Hm.
        specialize (Hm _ Hin). simpl in Hm. lra.
      * intros _. destruct (rerank_spec user_input ((d0, prob0) :: rest))
          as (r & Hr & _). by exists r.
    + split; [by intros [r ?]|]. intros [_ (m & Hm & Hle)].
      destruct (max_prob_attained _ _ Hm) as [d Hd].
      pose proof (sorted_frame_head_max rows d0 prob0 rest (d, m) Hs Hd) as Hmax.
      simpl in Hmax. assert (Qle_bool 0.10 prob0 = true); [|congruence].
      apply Qle_bool_iff. lra.
Qed.

Lemma delivered_iff_witness :
  ∃ r, @diagnose sample_collaborators "cow udder swollen" = Delivered r.
Proof.
  apply (@delivered_iff sample_collaborators "cow udder swollen").
  split; [reflexivity|]. exists 0.6. split; by vm_compute.
Defined.

(** X10.  The handler's failures: it answers [EmptyInput] exactly on a
    blank input, it raises [KeyError] exactly when the input is not blank
    and the classifier returns no class, and it never raises
    [ZeroDivisionError]. *)
Theorem handler_failures `{Collaborators} (user_input : string) :
  (diagnose user_input = EmptyInput ↔ truthy (strip user_input) = false) ∧
  (diagnose user_input = Raised KeyError ↔
     truthy (strip user_input) = true ∧ predict (lower user_input) = []) ∧
  diagnose user_input ≠ Raised ZeroDivisionError.
Proof.
  unfold diagnose. destruct (truthy (strip user_input)); cbn [negb].
  2: { split; [done|]. split; [|done]. split; [done | by intros [? _]]. }
  set (rows := predict (lower user_input)).
  destruct (sort_values rows) as [|[d0 prob0] rest] eqn:Hs.
  - split; [done|]. split; [|done]. split; [|done]. intros _. split; [done|].
    destruct rows as [|row rows'] eqn:Hr; [done|].
    by destruct (sort_values_nonempty (row :: rows')).
  - assert (rows ≠ []) as Hne.
    { intros Hr. rewrite Hr, sort_values_nil in Hs. discriminate. }
    destruct (Qlt_bool prob0 0.10).
    + split; [done|]. split; [|done]. split; [done | by intros [_ ?]].
    + destruct (rerank_spec user_input ((d0, prob0) :: rest)) as (r & -> & _).
      split; [done|]. split; [|done]. split; [done | by intros [_ ?]].
Qed.

Lemma handler_failures_witness :
  @diagnose sample_collaborators "  " = EmptyInput.
Proof.
  apply (proj1 (@handler_failures sample_collaborators "  ")). reflexivity.
Defined.

(** The band as a level, for comparing cards. *)
Definition band_level (b : Band) : nat :=
  match b with
  | High => 2
  | Medium => 1
  | Low => 0
  end.

Section CardFacts.
Context `{Collaborators}.

Lemma rank_strongly_sorted (adjusted : list Row) :
  StronglySorted desc (rank adjusted).
Proof.
  unfold rank. pose proof (sorted_desc_strongly adjusted) as Hs.
  rewrite <- (take_drop top_n (sorted_desc adjusted)) in Hs.
  by apply StronglySorted_app_1_l in Hs.
Qed.

Lemma banding_level_mono (c1 c2 : Q) :
  c2 <= c1 →
  (band_level (banding c2).2 ≤ band_level (banding c1).2)%nat.
Proof.
  intros Hle. unfold banding.
  destruct (Qle_bool 50 c1) eqn:H1.
  { destruct (Qle_bool 50 c2); [simpl; lia|].
    destruct (Qle_bool 20 c2); simpl; lia. }
  destruct (Qle_bool 50 c2) eqn:H2.
  { apply Qle_bool_iff in H2. assert (Qle_bool 50 c1 = true); [|congruence].
    apply Qle_bool_iff. lra. }
  destruct (Qle_bool 20 c1) eqn:H3.
  { destruct (Qle_bool 20 c2); simpl; lia. }
  destruct (Qle_bool 20 c2) eqn:H4; [|simpl; lia].
  apply Qle_bool_iff in H4. assert (Qle_bool 20 c1 = true); [|congruence].
  apply Qle_bool_iff. lra.
Qed.

Lemma names_take_scaled (n : nat) (t : Q) (l : list Row) :
  map fst (take n (map (λ row : Row, (row.1, row.2 / t)) l))
  = take n (map fst l).
Proof.
  revert n. induction l as [|x l IH]; intros [|n]; simpl; try done.
  by rewrite IH.
Qed.

Lemma Qle_bool_false (x y : Q) : Qle_bool x y = false ↔ y < x.
Proof.
  split.
  - intros Hb. destruct (Qlt_le_dec y x) as [|Hle]; [done|].
    apply Qle_bool_iff in Hle. congruence.
  - intros Hlt. destruct (Qle_bool x y) eqn:Hb; [|done].
    apply Qle_bool_iff in Hb. lra.
Qed.

End CardFacts.

(** X11.  When nothing is penalised the ranking is the classifier's own:
    on a frame without negative probability, with no species detected or
    no disease excluding the detected one, the ranked diseases are the
    first three of the frame sorted by raw probability. *)
Theorem ranking_without_penalty `{Collaborators} (user_input : string)
    (r : Diagnosis) :
  diagnose user_input = Delivered r →
  nonneg_rows (predict (lower user_input)) →
  (∀ sp, species_detected r = Some sp →
     Forall (λ row : Row, ¬ excludes row.1 sp) (predict (lower user_input))) →
  map fst (top3 r)
  = take 3 (map fst (sort_values (predict (lower user_input)))).
Proof.
  intros Hd Hnn Hex.
  destruct (diagnose_delivered _ _ Hd) as (_ & _ & Hadj & -> & _).
  set (all_df := sort_values (predict (lower user_input))) in *.
  assert (nonneg_rows all_df) as Hnn'.
  { unfold nonneg_rows, all_df. by rewrite sort_values_perm. }
  assert (∀ sp, species_detected r = Some sp →
            Forall (λ row : Row, ¬ excludes row.1 sp) all_df) as Hex'.
  { intros sp Hsp. unfold all_df. rewrite sort_values_perm. by apply Hex. }
  rewrite species_adjust_total in Hadj. cbv zeta in Hadj.
  rewrite (unpenalised_rows _ _ Hex') in Hadj. injection Hadj as <-.
  assert (0 < divisor all_df) as Hdiv.
  { apply divisor_pos, py_sum_nonneg.
    unfold nonneg_rows in Hnn'. rewrite Forall_forall in Hnn'.
    apply Forall_forall. intros q Hq.
    apply list_elem_of_fmap in Hq as (row & -> & Hrow). by apply Hnn'. }
  unfold rank, top_n. rewrite sorted_desc_fixed.
  - apply names_take_scaled.
  - apply sorted_scaled; [done | apply sort_values_desc].
Qed.

Lemma ranking_without_penalty_witness :
  ∃ r, @diagnose sample_collaborators "udder swollen" = Delivered r ∧
    map fst (top3 r) = ["Parvovirus"; "Mastitis"; "Arthritis"].
Proof.
  destruct (@diagnose sample_collaborators "udder swollen") as [| | |r] eqn:Hd;
    try (vm_compute in Hd; discriminate).
  exists r. split; [done|].
  rewrite (@ranking_without_penalty sample_collaborators _ r Hd).
  - reflexivity.
  - repeat constructor; by vm_compute.
  - intros sp Hsp. vm_compute in Hd. injection Hd as <-. discriminate Hsp.
Defined.

(** X12.  The alert flag can be read off the first card: in a delivered
    diagnosis it is set exactly when the first ranked entry has a
    confidence percentage of at least 50. *)
Theorem alert_iff_first `{Collaborators} (user_input : string) (r : Diagnosis) :
  diagnose user_input = Delivered r →
  alert_triggered r = true ↔ ∃ e, head (top3 r) = Some e ∧ 50 <= e.2 * 100.
Proof.
  intros Hd. destruct (diagnose_delivered _ _ Hd) as (_ & _ & _ & Ht & _ & Ha).
  rewrite Ha. pose proof (rank_strongly_sorted (adjusted r)) as Hs.
  rewrite <- Ht in Hs. destruct (top3 r) as [|e rest]; simpl.
  - split; [done | by intros (e & ? & _)].
  - apply StronglySorted_inv in Hs as [_ Hall]. rewrite Forall_forall in Hall.
    rewrite orb_true_iff. unfold is_high at 1. rewrite Qle_bool_iff. split.
    + intros [He | Hrest]; [by exists e|]. exists e. split; [done|].
      apply existsb_exists in Hrest as (e' & He' & Hh).
      apply Qle_bool_iff in Hh. apply list_elem_of_In, Hall in He'.
      unfold desc in He'. lra.
    + intros (e0 & [= <-] & He). by left.
Qed.

Lemma alert_iff_first_witness :
  ∃ r e, sample_udder = Some r ∧ head (top3 r) = Some e ∧ 50 <= e.2 * 100 ∧
    alert_triggered r = true.
Proof.
  destruct sample_udder as [r|] eqn:Hr; [|discriminate].
  assert (@diagnose sample_collaborators "cow udder swollen" = Delivered r) as Hd.
  { injection Hr as <-. by vm_compute. }
  destruct (head (top3 r)) as [e|] eqn:He;
    [|injection Hr as <-; discriminate He].
  exists r, e. split; [done|]. split; [done|].
  assert (50 <= e.2 * 100) as Hhigh.
  { injection Hr as <-. injection He as <-. by vm_compute. }
  split; [done|].
  apply (@alert_iff_first sample_collaborators _ r Hd).
  exists e. split; [exact He | exact Hhigh].
Defined.

(** X13.  The cards follow the ranking: there is one chart row per ranked
    entry, the rows are in descending confidence and their severity never
    rises from one row to the next; a row is High exactly from 50 up and
    Low exactly below 20. *)
Theorem cards_follow_ranking `{Collaborators} (user_input : string)
    (r : Diagnosis) :
  diagnose user_input = Delivered r →
  length (chart_rows r) = length (top3 r) ∧
  Sorted (λ a b, Confidence b <= Confidence a) (chart_rows r) ∧
  Sorted (λ a b, (band_level (Severity b) ≤ band_level (Severity a))%nat)
    (chart_rows r) ∧
  Forall (λ row, (Severity row = High ↔ 50 <= Confidence row) ∧
                 (Severity row = Low ↔ Confidence row < 20)) (chart_rows r).
Proof.
  intros Hd. destruct (diagnose_delivered _ _ Hd) as (_ & _ & _ & Ht & Hc & _).
  pose proof (rank_strongly_sorted (adjusted r)) as Hs.
  rewrite <- Ht in Hs. apply StronglySorted_Sorted in Hs.
  rewrite Hc. split; [by rewrite length_map|]. split; [|split].
  - eapply (Sorted_fmap _ desc); [|exact Hs].
    intros a b Hab. rewrite !chart_row_confidence. unfold desc in Hab. lra.
  - eapply (Sorted_fmap _ desc); [|exact Hs].
    intros a b Hab. unfold chart_row_of. cbn [Severity].
    apply banding_level_mono. unfold desc in Hab. lra.
  - apply Forall_forall. intros row Hrow.
    apply list_elem_of_fmap in Hrow as (e & -> & _).
    unfold chart_row_of, banding. cbn [Severity Confidence].
    destruct (Qle_bool 50 (e.2 * 100)) eqn:H50; cbn [snd].
    + apply Qle_bool_iff in H50. split; split; try done. lra.
    + apply Qle_bool_false in H50.
      destruct (Qle_bool 20 (e.2 * 100)) eqn:H20; cbn [snd].
      * apply Qle_bool_iff in H20. split; split; try done; lra.
      * apply Qle_bool_false in H20. split; split; try done. lra.
Qed.

Lemma cards_follow_ranking_witness :
  ∃ r, sample_udder = Some r ∧
    length (chart_rows r) = length (top3 r) ∧
    map Severity (chart_rows r) = [High; Medium; Low].
Proof.
  destruct sample_udder as [r|] eqn:Hr; [|discriminate].
  assert (@diagnose sample_collaborators "cow udder swollen" = Delivered r) as Hd.
  { injection Hr as <-. by vm_compute. }
  destruct (@cards_follow_ranking sample_collaborators _ r Hd) as (Hlen & _).
  exists r. split; [done|]. split; [exact Hlen|].
  injection Hr as <-. reflexivity.
Defined.

(** * Further properties of the species detector (lines 138-146) *)

(** The species in the order the detector visits them. *)
Definition species_names : list string := map fst species_keywords.

(** [sp'] is visited no later than [sp]. *)
Definition priority_le (sp' sp : string) : Prop :=
  ∃ i' i : nat,
    species_names !! i' = Some sp' ∧ species_names !! i = Some sp ∧ (i' ≤ i)%nat.

Section DetectorFacts.

Lemma string_app_assoc (a b c : string) : (a +:+ b) +:+ c = a +:+ (b +:+ c).
Proof.
  induction a as [|x a IH]; [reflexivity|].
  change (String x ((a +:+ b) +:+ c) = String x (a +:+ (b +:+ c))).
  by f_equal.
Qed.

(** A substring of a text is a substring of every text around it. *)
Lemma is_substring_context k txt pre post :
  is_substring k txt → is_substring k (pre +:+ txt +:+ post).
Proof.
  intros (a & b & ->). exists (pre +:+ a), (b +:+ post).
  by rewrite !string_app_assoc.
Qed.

Lemma any_key_context txt pre post keys :
  any_key txt keys = true → any_key (pre +:+ txt +:+ post) keys = true.
Proof.
  rewrite !any_key_spec. intros (k & Hk & Hs). exists k. split; [done|].
  by apply is_substring_context.
Qed.

(** The two loops as a cascade over the three species. *)
Lemma detect_species_cases txt :
  detect_species txt =
    if any_key txt (keywords_of "dog") then Some "dog"
    else if any_key txt (keywords_of "cat") then Some "cat"
    else if any_key txt (keywords_of "cow") then Some "cow"
    else None.
Proof.
  unfold detect_species. cbn [species_keywords scan_species].
  rewrite !scan_keys_spec.
  change (keywords_of "dog") with (species_keywords !!! 0%nat).2.
  change (keywords_of "cat") with (species_keywords !!! 1%nat).2.
  change (keywords_of "cow") with (species_keywords !!! 2%nat).2.
  cbn [species_keywords lookup_total list_lookup_total snd].
  destruct (any_key txt _); [done|]. cbn [opt_truthy].
  destruct (any_key txt _); [done|]. cbn [opt_truthy].
  by destruct (any_key txt _).
Qed.

Lemma detect_species_range txt sp :
  detect_species txt = Some sp → sp ∈ species_names ∧ truthy sp = true.
Proof.
  rewrite detect_species_cases.
  destruct (any_key txt _); [intros [= <-]; split; [|done] |].
  { apply list_elem_of_In. vm_compute. auto. }
  destruct (any_key txt _); [intros [= <-]; split; [|done] |].
  { apply list_elem_of_In. vm_compute. auto. }
  destruct (any_key txt _); [intros [= <-]; split; [|done] | done].
  apply list_elem_of_In. vm_compute. auto.
Qed.

End DetectorFacts.

(** X14.  Text around an input never hides a detection and never lowers
    its priority: when a text is detected as [sp], the same text with
    anything before and after it is detected as [sp] or as a species that
    is visited earlier. *)
Theorem detection_in_context (txt pre post sp : string) :
  detect_species txt = Some sp →
  ∃ sp',
    detect_species (pre +:+ txt +:+ post) = Some sp' ∧ priority_le sp' sp.
Proof.
  rewrite !detect_species_cases.
  pose proof (any_key_context txt pre post (keywords_of "dog")) as Hdog.
  pose proof (any_key_context txt pre post (keywords_of "cat")) as Hcat.
  pose proof (any_key_context txt pre post (keywords_of "cow")) as Hcow.
  assert (∀ i' i a b, species_names !! i' = Some a → species_names !! i = Some b →
            (i' ≤ i)%nat → priority_le a b) as Hp.
  { intros i' i a b ? ? ?. by exists i', i. }
  destruct (any_key txt (keywords_of "dog")).
  { intros [= <-]. rewrite (Hdog eq_refl). exists "dog". split; [done|].
    by apply (Hp 0%nat 0%nat). }
  destruct (any_key txt (keywords_of "cat")).
  { intros [= <-]. rewrite (Hcat eq_refl).
    destruct (any_key _ (keywords_of "dog")).
    - exists "dog". split; [done|]. apply (Hp 0%nat 1%nat); [done | done | lia].
    - exists "cat". split; [done|]. by apply (Hp 1%nat 1%nat). }
  destruct (any_key txt (keywords_of "cow")); [|done].
  intros [= <-]. rewrite (Hcow eq_refl).
  destruct (any_key _ (keywords_of "dog")).
  - exists "dog". split; [done|]. apply (Hp 0%nat 2%nat); [done | done | lia].
  - destruct (any_key _ (keywords_of "cat")).
    + exists "cat". split; [done|]. apply (Hp 1%nat 2%nat); [done | done | lia].
    + exists "cow". split; [done|]. by apply (Hp 2%nat 2%nat).
Qed.

Lemma detection_in_context_witness :
  ∃ sp',
    detect_species ("my dog chased the " +:+ "cow" +:+ " today") = Some sp' ∧
    priority_le sp' "cow".
Proof.
  apply (detection_in_context "cow" "my dog chased the " " today" "cow").
  reflexivity.
Defined.

(** * The static tables together (lines 15-57) *)

(** X15.  The two disease tables describe the same diseases: under ASCII
    stripping and lowercasing every key of [disease_species] finds its
    Sinhala name in [disease_si], so no tagged disease is shown with the
    placeholder, and every key of [disease_si] is the lowercase form of a
    key of [disease_species]. *)
Theorem catalogue_named :
  (∀ d, d ∈ dom disease_species →
     is_Some (disease_si !! ascii_lower (ascii_strip d)) ∧
     @siname sample_collaborators d ≠ si_missing) ∧
  (∀ k, k ∈ dom disease_si →
     ∃ d, d ∈ dom disease_species ∧ ascii_lower (ascii_strip d) = k).
Proof.
  split.
  - intros d. unfold disease_species at 1. rewrite dom_list_to_map_L.
    rewrite elem_of_list_to_set. cbn [fmap list_fmap fst]. intros Hd.
    repeat (apply elem_of_cons in Hd as [->|Hd]);
      try (by apply elem_of_nil in Hd);
      (split; [vm_compute; eauto | vm_compute; discriminate]).
  - intros k. unfold disease_si at 1. rewrite dom_list_to_map_L.
    rewrite elem_of_list_to_set. cbn [fmap list_fmap fst]. intros Hk.
    assert (∀ d, is_Some (disease_species !! d) → d ∈ dom disease_species)
      as Hdom by (intros d; apply elem_of_dom).
    repeat (apply elem_of_cons in Hk as [->|Hk]);
      try (by apply elem_of_nil in Hk).
    + exists "Parvovirus". split; [apply Hdom; vm_compute; eauto | done].
    + exists "Distemper". split; [apply Hdom; vm_compute; eauto | done].
    + exists "Skin_Allergy". split; [apply Hdom; vm_compute; eauto | done].
    + exists "Mastitis". split; [apply Hdom; vm_compute; eauto | done].
    + exists "Foot_and_Mouth". split; [apply Hdom; vm_compute; eauto | done].
    + exists "Bovine_Diarrhea". split; [apply Hdom; vm_compute; eauto | done].
    + exists "Bovine_Tuberculosis". split; [apply Hdom; vm_compute; eauto | done].
    + exists "Feline_Allergy". split; [apply Hdom; vm_compute; eauto | done].
    + exists "Feline_Arthritis". split; [apply Hdom; vm_compute; eauto | done].
    + exists "Feline_Panleukopenia". split; [apply Hdom; vm_compute; eauto | done].
    + exists "Feline_UTI". split; [apply Hdom; vm_compute; eauto | done].
    + exists "Arthritis". split; [apply Hdom; vm_compute; eauto | done].
    + exists "Ketosis". split; [apply Hdom; vm_compute; eauto | done].
    + exists "Kidney_Disease". split; [apply Hdom; vm_compute; eauto | done].
    + exists "Rhinotracheitis". split; [apply Hdom; vm_compute; eauto | done].
Qed.

Lemma catalogue_named_witness :
  @siname sample_collaborators "Foot_and_Mouth" ≠ si_missing.
Proof.
  apply (proj1 catalogue_named "Foot_and_Mouth").
  apply elem_of_dom. vm_compute. eauto.
Defined.

(** X16.  Every species named in a tag is one the detector can return, and
    every tagged disease escapes the penalty for at least one of them. *)
Theorem tags_name_species (d ds : string) :
  disease_species !! d = Some ds →
  (∀ sp, sp ∈ tag_set ds → sp ∈ species_names) ∧
  ∃ sp, sp ∈ species_names ∧ ¬ excludes d sp.
Proof.
  intros Hd. pose proof Hd as Hd'. apply elem_of_list_to_map_2 in Hd'.
  assert (∀ sp, mem sp (tag_set ds) = true → ¬ excludes d sp) as Hin.
  { intros sp Hm (ds' & Hds' & Hn). rewrite Hd in Hds'. injection Hds' as <-.
    by apply Hn, mem_spec. }
  assert (∀ sp : string, In sp species_names → sp ∈ species_names) as Hel.
  { intros sp. apply list_elem_of_In. }
  repeat (apply elem_of_cons in Hd' as [Hd'|Hd']; [injection Hd' as -> ->|]);
    try (by apply elem_of_nil in Hd').
  all: split;
    [ intros sp Hsp; apply list_elem_of_In in Hsp; vm_compute in Hsp;
      apply Hel; vm_compute; tauto
    | first [ exists "dog"; split; [apply Hel; vm_compute; tauto | by apply Hin]
            | exists "cat"; split; [apply Hel; vm_compute; tauto | by apply Hin]
            | exists "cow"; split; [apply Hel; vm_compute; tauto | by apply Hin] ] ].
Qed.

Lemma tags_name_species_witness :
  (∀ sp, sp ∈ tag_set "dog_cow" → sp ∈ species_names) ∧
  ∃ sp, sp ∈ species_names ∧ ¬ excludes "Arthritis" sp.
Proof. apply (tags_name_species "Arthritis" "dog_cow"). reflexivity. Defined.

(** * History log (lines 238-254) *)

Module History.

(** [sep.join(l)]. *)
Fixpoint join (sep : string) (l : list string) : string :=
  match l with
  | [] => EmptyString
  | x :: rest =>
      match rest with
      | [] => x
      | _ :: _ => x +:+ sep +:+ join sep rest
      end
  end.

(** [detected_species or ""]. *)
Definition or_empty (detected_species : option string) : string :=
  match detected_species with
  | Some sp => if truthy sp then sp else EmptyString
  | None => EmptyString
  end.

(** The detected species of a diagnosis. *)
Definition detected (r : Diagnosis) : option string := species_detected r.

(** The dictionary [history_row] of lines 242-247. *)
Record Entry : Type := mkEntry {
  timestamp : string;
  input : string;
  species_detected : string;
  predictions : string
}.

(** One item of the comprehension at line 241; [format_1f] is the
    conversion [:.1f] of a percentage. *)
Definition prediction (format_1f : Q → string) (row : ChartRow) : string :=
  Disease row +:+ "|" +:+ format_1f (Confidence row) +:+ "%".

Definition preds_text (format_1f : Q → string) (chart_rows : list ChartRow)
    : string :=
  join ";" (map (prediction format_1f) chart_rows).

(** Lines 241-247; [now] is the clock reading
    [datetime.utcnow().isoformat()]. *)
Definition history_row (format_1f : Q → string) (now user_input : string)
    (r : Diagnosis) : Entry :=
  mkEntry now user_input (or_empty (detected r))
    (preds_text format_1f (chart_rows r)).

(** The file [diagnosis_history.csv]: absent, or a header line followed by
    the rows written so far. *)
Abbreviation LogFile := (option (list Entry)).

Definition rows_of (file : LogFile) : list Entry := default [] file.

(** Lines 248-254.  A missing file is created with the row, an existing
    one gets the row appended.  [written] is false when [to_csv] raised;
    line 253 swallows the exception, and the file is taken to be as it was
    before. *)
Definition save (written : bool) (file : LogFile) (row : Entry) : LogFile :=
  if written then
    match file with
    | None => Some [row]
    | Some rows => Some (rows ++ [row])
    end
  else file.

(** A press of the button: clock reading, input, and whether the write
    went through. *)
Abbreviation Request := (string * string * bool)%type.

Section Session.
Context `{Collaborators}.
Variable format_1f : Q → string.

(** The effect of one request on the file: only a delivered diagnosis
    reaches line 238. *)
Definition log_request (file : LogFile) (req : Request) : LogFile :=
  let '(now, user_input, written) := req in
  match diagnose user_input with
  | Delivered r => save written file (history_row format_1f now user_input r)
  | _ => file
  end.

Definition log_session (file : LogFile) (reqs : list Request) : LogFile :=
  fold_left log_request reqs file.

(** The row a request contributes, if any. *)
Definition logged (req : Request) : option Entry :=
  let '(now, user_input, written) := req in
  match diagnose user_input with
  | Delivered r =>
      if written then Some (history_row format_1f now user_input r) else None
  | _ => None
  end.

End Session.

End History.

Section HistoryFacts.
Context `{Collaborators}.
Variable format_1f : Q → string.

Lemma log_request_rows file req :
  History.rows_of (History.log_request format_1f file req)
  = History.rows_of file ++ option_list (History.logged format_1f req).
Proof.
  destruct req as [[now user_input] written].
  unfold History.log_request, History.logged.
  destruct (diagnose user_input); try by rewrite app_nil_r.
  unfold History.save. destruct written; [|by rewrite app_nil_r].
  by destruct file.
Qed.

Lemma delivered_nonempty user_input r :
  diagnose user_input = Delivered r → chart_rows r ≠ [].
Proof.
  intros Hd. destruct (diagnose_delivered _ _ Hd) as (_ & _ & Hadj & Ht & Hc & _).
  cbv zeta in Hadj. rewrite species_adjust_total in Hadj. cbv zeta in Hadj.
  injection Hadj as Hadj.
  destruct (sort_values (predict (lower user_input))) as [|row rest] eqn:Hs.
  { unfold diagnose in Hd. destruct (truthy (strip user_input)); [|done].
    cbn [negb] in Hd. by rewrite Hs in Hd. }
  intros Hnil. rewrite Hc, Ht in Hnil. apply fmap_nil_inv in Hnil.
  unfold rank, top_n in Hnil.
  pose proof (Permutation_length (sorted_desc_perm (adjusted r))) as Hlen.
  rewrite <- Hadj in Hlen at 2. simpl in Hlen.
  destruct (sorted_desc (adjusted r)); [simpl in Hlen; lia | discriminate].
Qed.

(** The separator as a one-character pattern. *)
Lemma contains_char_cons (c x : ascii) (s : string) :
  contains (String c EmptyString) (String x s) =
    Ascii.eqb c x || contains (String c EmptyString) s.
Proof. cbn [contains starts_with]. by rewrite andb_true_r. Qed.

Lemma contains_char_app (c : ascii) (a b : string) :
  contains (String c EmptyString) a = false →
  contains (String c EmptyString) b = false →
  contains (String c EmptyString) (a +:+ b) = false.
Proof.
  intros Ha Hb. induction a as [|x a IH]; [done|].
  rewrite contains_char_cons in Ha. apply orb_false_iff in Ha as [Hx Ha].
  change (String x a +:+ b) with (String x (a +:+ b)).
  rewrite contains_char_cons, Hx. by apply IH.
Qed.

Lemma split_app_sep (c : ascii) (a rest : string) :
  contains (String c EmptyString) a = false →
  split c (a +:+ String c rest) = a :: split c rest.
Proof.
  induction a as [|x a IH]; intros Ha.
  - change (EmptyString +:+ String c rest) with (String c rest).
    cbn [split]. by rewrite Ascii.eqb_refl.
  - rewrite contains_char_cons in Ha. apply orb_false_iff in Ha as [Hx Ha].
    change (String x a +:+ String c rest)
      with (String x (a +:+ String c rest)).
    cbn [split]. rewrite Ascii.eqb_sym, Hx, (IH Ha). done.
Qed.

(** Splitting undoes joining when no item holds the separator. *)
Lemma split_join (c : ascii) (l : list string) :
  l ≠ [] →
  Forall (λ s, contains (String c EmptyString) s = false) l →
  split c (History.join (String c EmptyString) l) = l.
Proof.
  intros Hne Hall. induction Hall as [|x l Hx Hall IH]; [done|].
  destruct l as [|y l].
  - simpl. by apply split_without_sep.
  - change (History.join (String c EmptyString) (x :: y :: l))
      with (x +:+ String c EmptyString +:+ History.join (String c EmptyString) (y :: l)).
    change (String c EmptyString +:+ History.join (String c EmptyString) (y :: l))
      with (String c (History.join (String c EmptyString) (y :: l))).
    rewrite (split_app_sep c x _ Hx), IH; done.
Qed.

End HistoryFacts.

(** X17.  The history row records the detected species under
    [species_detected]: the field is empty exactly when no species was
    detected, and otherwise it is the detected species, one of dog, cat
    and cow. *)
Theorem logged_species `{Collaborators} (format_1f : Q → string)
    (now user_input : string) (r : Diagnosis) :
  diagnose user_input = Delivered r →
  let field :=
    History.species_detected (History.history_row format_1f now user_input r) in
  (field = EmptyString ↔ detect_species (lower user_input) = None) ∧
  (field ≠ EmptyString →
     detect_species (lower user_input) = Some field ∧ field ∈ species_names).
Proof.
  intros Hd field. subst field.
  destruct (diagnose_delivered _ _ Hd) as (_ & Hsp & _).
  unfold History.history_row. cbn [History.species_detected].
  unfold History.detected, History.or_empty. rewrite Hsp.
  destruct (detect_species (lower user_input)) as [sp|] eqn:Hdet; cbn.
  - destruct (detect_species_range _ _ Hdet) as [Hin Htr]. rewrite Htr.
    split.
    + split; [|done]. intros ->. discriminate Htr.
    + intros _. by split.
  - split; [done|]. by intros Hne.
Qed.

Lemma logged_species_witness :
  ∃ r, sample_udder = Some r ∧
    History.species_detected
      (History.history_row (λ _, "69.8") "2024-01-01T00:00:00"
         "cow udder swollen" r) = "cow".
Proof.
  destruct sample_udder as [r|] eqn:Hr; [|discriminate].
  assert (@diagnose sample_collaborators "cow udder swollen" = Delivered r) as Hd.
  { injection Hr as <-. by vm_compute. }
  exists r. split; [done|].
  destruct (@logged_species sample_collaborators (λ _, "69.8")
              "2024-01-01T00:00:00" _ r Hd) as [_ Hfield].
  assert (History.species_detected
            (History.history_row (λ _, "69.8") "2024-01-01T00:00:00"
               "cow udder swollen" r) ≠ EmptyString) as Hne.
  { injection Hr as <-. discriminate. }
  destruct (Hfield Hne) as [Hdet _].
  assert (detect_species (ascii_lower "cow udder swollen") = Some "cow") as Hcow
    by reflexivity.
  change (@lower sample_collaborators "cow udder swollen")
    with (ascii_lower "cow udder swollen") in Hdet.
  rewrite Hcow in Hdet. injection Hdet as Heq. symmetry. exact Heq.
Defined.

(** X18.  The history file is append-only and holds delivered diagnoses
    only: after any sequence of requests its rows are the rows it had,
    followed in order by one row for each request that was delivered and
    written; blank and rejected requests add nothing, and an existing file
    stays in existence. *)
Theorem session_log `{Collaborators} (format_1f : Q → string)
    (file : History.LogFile) (reqs : list History.Request) :
  History.rows_of (History.log_session format_1f file reqs)
  = History.rows_of file ++ omap (History.logged format_1f) reqs ∧
  (is_Some file → is_Some (History.log_session format_1f file reqs)).
Proof.
  unfold History.log_session. revert file.
  induction reqs as [|req reqs IH]; intros file; cbn [fold_left].
  - split; [|done]. change (omap (History.logged format_1f) []) with (@nil History.Entry).
    by rewrite app_nil_r.
  - destruct (IH (History.log_request format_1f file req)) as [Hrows Hex].
    split.
    + rewrite Hrows, log_request_rows, <- app_assoc. f_equal.
      change (omap (History.logged format_1f) (req :: reqs)) with
        (match History.logged format_1f req with
         | Some y => y :: omap (History.logged format_1f) reqs
         | None => omap (History.logged format_1f) reqs
         end).
      by destruct (History.logged format_1f req).
    + intros Hfile. apply Hex. destruct req as [[now user_input] written].
      unfold History.log_request. destruct (diagnose user_input); try done.
      unfold History.save. destruct written; [|done]. by destruct file.
Qed.

Lemma session_log_witness :
  length (History.rows_of
            (@History.log_session sample_collaborators (λ _, "0.0") (Some [])
               [("t1", "cow udder swollen", true); ("t2", "  ", true);
                ("t3", "hello", true); ("t4", "cow fever", false);
                ("t5", "cow fever", true)])) = 2%nat.
Proof.
  destruct (@session_log sample_collaborators (λ _, "0.0") (Some [])
              [("t1", "cow udder swollen", true); ("t2", "  ", true);
               ("t3", "hello", true); ("t4", "cow fever", false);
               ("t5", "cow fever", true)]) as [-> _].
  by vm_compute.
Defined.

(** X19.  The predictions field can be read back: when the conversion of
    a percentage holds no semicolon and neither do the ranked diseases and
    their display names, splitting the field at ";" gives one item per
    card, in rank order. *)
Theorem predictions_round_trip `{Collaborators} (format_1f : Q → string)
    (now user_input : string) (r : Diagnosis) :
  diagnose user_input = Delivered r →
  (∀ q, contains ";" (format_1f q) = false) →
  Forall (λ e : Row, contains ";" e.1 = false ∧
                     contains ";" (siname e.1) = false) (top3 r) →
  split ";" (History.predictions
               (History.history_row format_1f now user_input r))
  = map (History.prediction format_1f) (chart_rows r).
Proof.
  intros Hd Hfmt Hnames.
  pose proof (delivered_nonempty _ _ Hd) as Hne.
  destruct (diagnose_delivered _ _ Hd) as (_ & _ & _ & _ & Hc & _).
  unfold History.history_row. cbn [History.predictions].
  unfold History.preds_text. apply split_join.
  - intros Hnil. by apply fmap_nil_inv in Hnil.
  - rewrite Hc. apply Forall_forall. intros s Hs.
    apply list_elem_of_fmap in Hs as (row & -> & Hrow).
    apply list_elem_of_fmap in Hrow as (e & -> & He).
    rewrite Forall_forall in Hnames. destruct (Hnames e He) as [Hd1 Hd2].
    unfold History.prediction, chart_row_of. cbn [Disease Confidence].
    repeat (apply contains_char_app; try done).
Qed.

Lemma predictions_round_trip_witness :
  ∃ r, sample_udder = Some r ∧
    length (split ";"
              (History.predictions
                 (@History.history_row (λ _, "0.0") "t1" "cow udder swollen" r)))
    = 3%nat.
Proof.
  destruct sample_udder as [r|] eqn:Hr; [|discriminate].
  assert (@diagnose sample_collaborators "cow udder swollen" = Delivered r) as Hd.
  { injection Hr as <-. by vm_compute. }
  exists r. split; [done|].
  rewrite (@predictions_round_trip sample_collaborators (λ _, "0.0") "t1" _ r Hd).
  - injection Hr as <-. reflexivity.
  - reflexivity.
  - injection Hr as <-. repeat constructor; by vm_compute.
Defined.

